(** * classify_oidv2: label tables, ranking and result printing

    A shallow embedding of [tools/classify_oidv2.py].  The script loads an
    index->mid list and a mid->display-name dictionary, obtains one score
    vector per image from a restored TensorFlow graph, ranks the class
    indices by score and prints one line per retained class.

    Modelling conventions:
    - a Python [str] is a [string] of bytes (the script is Python 2 era);
      a text file is the [string] of its content, and iterating over it
      is the line reader of [tf.gfile.GFile], which drops carriage returns;
    - the Python dict [label_dict] is a [gmap string string];
    - a score is the exact rational value of a finite float ([Q]); NaN,
      infinities and the negative zero are outside the model;
    - [numpy.ndarray.argsort] and the TensorFlow session are external: the
      first is taken through its contract ([argsort_impl]), the second as a
      function from the bytes of an image file to its score vector;
    - exceptions are values of [exn]; [print] appends to the list of
      printed strings. *)

From Stdlib Require Import Ascii String QArith Qabs DecimalString DecimalNat.
From Stdlib Require Import Lqa.
From stdpp Require Import gmap strings list sorting.

Local Open Scope string_scope.
Local Open Scope list_scope.

(** ** Characters and byte strings *)

Definition dquote : ascii := "034"%char.
Definition newline : ascii := "010"%char.
Definition comma : ascii := ","%char.
Definition space : ascii := " "%char.
Definition carriage_return : ascii := "013"%char.
Definition tab : ascii := "009"%char.

Definition in_chars (cs : list ascii) (c : ascii) : bool :=
  bool_decide (c ∈ cs).

(** [s.lstrip(chars)] *)
Fixpoint lstrip_by (p : ascii → bool) (s : string) : string :=
  match s with
  | EmptyString => EmptyString
  | String c s' => if p c then lstrip_by p s' else s
  end.

(** [s.rstrip(chars)] *)
Fixpoint rstrip_by (p : ascii → bool) (s : string) : string :=
  match s with
  | EmptyString => EmptyString
  | String c s' =>
      match rstrip_by p s' with
      | EmptyString => if p c then EmptyString else String c EmptyString
      | r => String c r
      end
  end.

(** [s.strip(chars)] *)
Definition strip_by (p : ascii → bool) (s : string) : string :=
  rstrip_by p (lstrip_by p s).

(** [line.rstrip()]: without an argument the ASCII whitespace bytes
    (space, \t, \n, \v, \f, \r) are removed. *)
Definition rstrip (s : string) : string := rstrip_by Ascii.is_space s.

(** The character set passed to [word.strip] in [LoadLabelMap]: a space,
    a double quote and a newline. *)
Definition strip_chars : list ascii := [space; dquote; newline].

Definition strip_word (s : string) : string :=
  strip_by (in_chars strip_chars) s.

(** [s.split(sep)] for a one-character separator. *)
Fixpoint split (sep : ascii) (s : string) : list string :=
  match s with
  | EmptyString => [EmptyString]
  | String c s' =>
      if decide (c = sep) then EmptyString :: split sep s'
      else match split sep s' with
           | w :: ws => String c w :: ws
           | [] => [String c EmptyString]
           end
  end.

(** [s.split(sep, 1)]: at most one split, at the first separator. *)
Fixpoint split1 (sep : ascii) (s : string) : list string :=
  match s with
  | EmptyString => [EmptyString]
  | String c s' =>
      if decide (c = sep) then [EmptyString; s']
      else match split1 sep s' with
           | w :: ws => String c w :: ws
           | [] => [String c EmptyString]
           end
  end.

(** Iterating over an open [tf.gfile.GFile] yields its lines.  The line
    reader of the library drops every carriage return, ends a line after
    each newline, which it keeps, and yields what follows the last newline
    when that is not empty. *)
Fixpoint readlines (content : string) : list string :=
  match content with
  | EmptyString => []
  | String c s' =>
      if decide (c = carriage_return) then readlines s'
      else if decide (c = newline) then String c EmptyString :: readlines s'
      else match readlines s' with
           | l :: ls => String c l :: ls
           | [] => [String c EmptyString]
           end
  end.

(** Vocabulary for statements about strings. *)
Fixpoint contains (c : ascii) (s : string) : bool :=
  match s with
  | EmptyString => false
  | String a s' => if decide (a = c) then true else contains c s'
  end.

(** The content of a file as its line reader sees it. *)
Fixpoint drop_cr (s : string) : string :=
  match s with
  | EmptyString => EmptyString
  | String a s' =>
      if decide (a = carriage_return) then drop_cr s'
      else String a (drop_cr s')
  end.

Fixpoint string_forall (p : ascii → bool) (s : string) : bool :=
  match s with
  | EmptyString => true
  | String a s' => p a && string_forall p s'
  end.

Definition first_char (s : string) : option ascii :=
  match s with
  | EmptyString => None
  | String c _ => Some c
  end.

Fixpoint last_char (s : string) : option ascii :=
  match s with
  | EmptyString => None
  | String c EmptyString => Some c
  | String _ s' => last_char s'
  end.

(** Neither the first nor the last character satisfies [p]. *)
Definition trimmed (p : ascii → bool) (s : string) : Prop :=
  (∀ c, first_char s = Some c → p c = false)
  ∧ (∀ c, last_char s = Some c → p c = false).

(** The two fields [words[0]] and [words[1]] that [LoadLabelMap] reads
    from a line of the dictionary file (the empty string stands in for a
    missing field). *)
Definition line_key (line : string) : string :=
  strip_word (default "" (split1 comma line !! 0)).

Definition line_value (line : string) : string :=
  strip_word (default "" (split1 comma line !! 1)).

(** The dictionary after a well-formed line has been read. *)
Definition bind_line (label_dict : gmap string string) (line : string)
  : gmap string string :=
  <[line_key line := line_value line]> label_dict.

(** ** Exceptions *)

Inductive exn := IndexError | KeyError.

Inductive result (A : Type) :=
  | Ok (a : A)
  | Raise (e : exn).
Arguments Ok {A} a.
Arguments Raise {A} e.

#[global] Instance result_ret : MRet result := λ A a, Ok a.
#[global] Instance result_bind : MBind result := λ A B f m,
  match m with
  | Ok a => f a
  | Raise e => Raise e
  end.

(** [l[i]] on a Python list, for an index that is not negative. *)
Definition getitem {A} (l : list A) (i : nat) : result A :=
  match l !! i with
  | Some x => Ok x
  | None => Raise IndexError
  end.

(** [d[k]] on a Python dict. *)
Definition dict_getitem (d : gmap string string) (k : string) : result string :=
  match d !! k with
  | Some v => Ok v
  | None => Raise KeyError
  end.

(** ** Output: [print] appends one string (its newline is implicit) *)

Definition io (A : Type) : Type := list string → list string * result A.

Definition io_ret {A} (a : A) : io A := λ out, (out, Ok a).
Definition io_bind {A B} (m : io A) (f : A → io B) : io B := λ out,
  match m out with
  | (out', Ok a) => f a out'
  | (out', Raise e) => (out', Raise e)
  end.
Definition lift {A} (r : result A) : io A := λ out, (out, r).
Definition print (s : string) : io unit := λ out, (out ++ [s], Ok ()).

Notation "x <~ m ;; k" := (io_bind m (λ x, k))
  (at level 100, m at next level, right associativity).
Notation "m ;;; k" := (io_bind m (λ _, k))
  (at level 100, right associativity).

(** [for x in xs: body x] *)
Fixpoint for_each {A} (xs : list A) (body : A → io unit) : io unit :=
  match xs with
  | [] => io_ret ()
  | x :: xs' => body x ;;; for_each xs' body
  end.

(** ** Number formatting *)

(** [str(n)] for a natural number. *)
Definition decimal (n : nat) : string :=
  NilZero.string_of_uint (Nat.to_uint n).

Fixpoint zeros (n : nat) : string :=
  match n with
  | O => ""
  | S n' => String "0" (zeros n')
  end.

(** The format field [{:04d}] on an index that is not negative. *)
Definition format_04d (idx : nat) : string :=
  let s := decimal idx in zeros (4 - String.length s) +:+ s.

(** Nearest integer, ties to the even neighbour. *)
Definition round_half_even (q : Q) : Z :=
  let n := Qnum q in
  let d := Z.pos (Qden q) in
  let f := (n / d)%Z in
  let r := (n mod d)%Z in
  if (2 * r <? d)%Z then f
  else if (d <? 2 * r)%Z then (f + 1)%Z
  else if Z.even f then f else (f + 1)%Z.

(** The number of hundredths shown by [{:.2f}] for the magnitude of [q]. *)
Definition hundredths (q : Q) : Z := round_half_even (Qabs q * 100).

Definition digit (d : Z) : ascii := ascii_of_nat (48 + Z.to_nat d).

(** The format field [{:.2f}] on a finite float: the exact value is rounded
    to two decimals, ties to even; the sign is that of the value. *)
Definition format_2f (q : Q) : string :=
  let h := hundredths q in
  (if Qle_bool 0 q then "" else "-")
  +:+ decimal (Z.to_nat (h / 100))
  +:+ String "." (String (digit (h mod 100 / 10))
                  (String (digit (h mod 10)) "")).

(** ['{:04d}: {} - {} (score = {:.2f})'.format(idx, mid, display_name, score)] *)
Definition format_line (idx : nat) (mid display_name : string) (score : Q)
  : string :=
  format_04d idx +:+ ": " +:+ mid +:+ " - " +:+ display_name
  +:+ " (score = " +:+ format_2f score +:+ ")".

(** ['Image: <dq>%s<dq>\n' % image_filename], where <dq> is a double quote. *)
Definition format_header (image_filename : string) : string :=
  "Image: " +:+ String dquote image_filename
  +:+ String dquote (String newline "").

(** ** The contract of [numpy.ndarray.argsort] on a one-dimensional array

    The result holds every index of the array once, and reading the array
    through it gives the scores in ascending order.  The order among equal
    scores is whatever the implementation does. *)

Definition score_at (v : list Q) (i : nat) : Q := default 0%Q (v !! i).

Definition ascending (v : list Q) (i j : nat) : Prop :=
  (score_at v i <= score_at v j)%Q.

Definition descending (v : list Q) (i j : nat) : Prop :=
  (score_at v j <= score_at v i)%Q.

Record argsort_impl := {
  argsort :> list Q → list nat;
  argsort_perm : ∀ v, argsort v ≡ₚ seq 0 (length v);
  argsort_sorted : ∀ v, Sorted (ascending v) (argsort v)
}.

(** One implementation: a merge sort of the indices. *)
Definition score_leb (v : list Q) (i j : nat) : Prop :=
  Qle_bool (score_at v i) (score_at v j) = true.

#[global] Instance score_leb_dec v i j : Decision (score_leb v i j).
Proof. unfold score_leb. apply _. Defined.

Definition merge_argsort (v : list Q) : list nat :=
  merge_sort (score_leb v) (seq 0 (length v)).

(** The order in which a ranking lists the indices: the position of an
    index in it (its length for an index that is not listed). *)
Fixpoint position (l : list nat) (i : nat) : nat :=
  match l with
  | [] => 0
  | j :: l' => if decide (i = j) then 0 else S (position l' i)
  end.

Definition listed_before (l : list nat) (i j : nat) : Prop :=
  position l i < position l j ∨ (position l i = position l j ∧ i < j).

(** [i] is ranked before [j]: a higher score, or an equal score and the
    tie-break order [tie]. *)
Definition ranks_before (v : list Q) (tie : relation nat) (i j : nat) : Prop :=
  (score_at v j < score_at v i)%Q ∨ (score_at v i == score_at v j ∧ tie i j)%Q.

#[global] Instance Qle_decision (x y : Q) : Decision (x <= y)%Q.
Proof.
  destruct (Qlt_le_dec y x) as [H|H]; [right|left]; [|done].
  by apply Qlt_not_le.
Defined.

(** [line] is the result line of the class index [idx]. *)
Definition result_line (labelmap : list string)
    (label_dict : gmap string string) (predictions_eval : list Q)
    (idx : nat) (line : string) : Prop :=
  ∃ mid display_name score,
    labelmap !! idx = Some mid
    ∧ label_dict !! mid = Some display_name
    ∧ predictions_eval !! idx = Some score
    ∧ line = format_line idx mid display_name score.

(** ** Command-line flags *)

Record flags := {
  FLAGS_labelmap : string;          (* path *)
  FLAGS_dict : string;              (* path *)
  FLAGS_image : string;             (* paths separated by one space *)
  FLAGS_top_k : Z;
  FLAGS_score_threshold : option Q
}.

Section Program.

(** The file system (path to content), [argsort], and the restored session
    (compressed image bytes to the evaluated [multi_predictions]). *)
Variable GFile : string → string.
Variable np_argsort : argsort_impl.
Variable sess_run : string → list Q.

(** One iteration of the loop over the lines of the dictionary file. *)
Definition LoadLabelMap_step (label_dict : gmap string string) (line : string)
  : result (gmap string string) :=
  let words := strip_word <$> split1 comma line in
  value ← getitem words 1;
  key ← getitem words 0;
  mret (<[key := value]> label_dict).

Fixpoint LoadLabelMap_loop (lines : list string)
    (label_dict : gmap string string) : result (gmap string string) :=
  match lines with
  | [] => mret label_dict
  | line :: lines' =>
      label_dict' ← LoadLabelMap_step label_dict line;
      LoadLabelMap_loop lines' label_dict'
  end.

Definition LoadLabelMap (labelmap_path dict_path : string)
  : result (list string * gmap string string) :=
  let labelmap := rstrip <$> readlines (GFile labelmap_path) in
  label_dict ← LoadLabelMap_loop (readlines (GFile dict_path)) ∅;
  mret (labelmap, label_dict).

(** [[i for i in top_k if predictions_eval[i] >= score_threshold]] *)
Fixpoint filter_threshold (predictions_eval : list Q) (score_threshold : Q)
    (top_k : list nat) : result (list nat) :=
  match top_k with
  | [] => mret []
  | i :: top_k' =>
      score ← getitem predictions_eval i;
      kept ← filter_threshold predictions_eval score_threshold top_k';
      mret (if Qle_bool score_threshold score then i :: kept else kept)
  end.

(** The value of [top_k] after the truncation [top_k[:FLAGS.top_k]] and
    before the threshold is looked at. *)
Definition truncated (FLAGS : flags) (predictions_eval : list Q) : list nat :=
  let top_k := reverse (np_argsort predictions_eval) in
  if bool_decide (0 < FLAGS_top_k FLAGS)%Z
  then take (Z.to_nat (FLAGS_top_k FLAGS)) top_k
  else top_k.

(** The value of [top_k] when the header is printed. *)
Definition ranked (FLAGS : flags) (predictions_eval : list Q)
  : result (list nat) :=
  let top_k := truncated FLAGS predictions_eval in
  match FLAGS_score_threshold FLAGS with
  | Some t => filter_threshold predictions_eval t top_k
  | None => mret top_k
  end.

(** The body of [for idx in top_k]. *)
Definition print_result (labelmap : list string)
    (label_dict : gmap string string) (predictions_eval : list Q)
    (idx : nat) : io unit :=
  mid <~ lift (getitem labelmap idx) ;;
  display_name <~ lift (dict_getitem label_dict mid) ;;
  score <~ lift (getitem predictions_eval idx) ;;
  print (format_line idx mid display_name score).

(** The body of [for image_filename in FLAGS.image.split(' ')]. *)
Definition classify_image (FLAGS : flags) (labelmap : list string)
    (label_dict : gmap string string) (image_filename : string) : io unit :=
  let compressed_image := GFile image_filename in
  let predictions_eval := sess_run compressed_image in
  top_k <~ lift (ranked FLAGS predictions_eval) ;;
  print (format_header image_filename) ;;;
  for_each top_k (print_result labelmap label_dict predictions_eval).

(** [block] is what one image adds to the output: the header, then the
    result lines of the ranked indices in order. *)
Definition image_block (FLAGS : flags) (labelmap : list string)
    (label_dict : gmap string string) (image_filename : string)
    (block : list string) : Prop :=
  let predictions_eval := sess_run (GFile image_filename) in
  ∃ top_k lines,
    ranked FLAGS predictions_eval = Ok top_k
    ∧ block = format_header image_filename :: lines
    ∧ Forall2 (result_line labelmap label_dict predictions_eval) top_k lines.

Definition main (FLAGS : flags) : io unit :=
  tables <~ lift (LoadLabelMap (FLAGS_labelmap FLAGS) (FLAGS_dict FLAGS)) ;;
  for_each (split space (FLAGS_image FLAGS))
           (classify_image FLAGS tables.1 tables.2).

End Program.

(** A second implementation of the contract of [argsort]: the same merge
    sort started from the indices in decreasing order, so that equal scores
    come out in another order. *)
Definition merge_argsort_rev (v : list Q) : list nat :=
  merge_sort (score_leb v) (reverse (seq 0 (length v))).

(** The class index [idx] has a mid in the label map and that mid has a
    display name in the dictionary. *)
Definition resolves (labelmap : list string)
    (label_dict : gmap string string) (idx : nat) : Prop :=
  ∃ mid, labelmap !! idx = Some mid ∧ is_Some (label_dict !! mid).

(** The exception that printing the result line of [idx] raises when the
    index does not resolve. *)
Definition lookup_exn (labelmap : list string) (idx : nat) : exn :=
  match labelmap !! idx with
  | Some _ => KeyError
  | None => IndexError
  end.

(** Number of occurrences of a character, and [sep.join(words)]. *)
Fixpoint count_char (c : ascii) (s : string) : nat :=
  match s with
  | EmptyString => 0
  | String a s' => (if decide (a = c) then 1 else 0) + count_char c s'
  end.

Fixpoint join (sep : ascii) (words : list string) : string :=
  match words with
  | [] => ""
  | [w] => w
  | w :: words' => w +:+ String sep (join sep words')
  end.

(** ** Example inputs *)

Definition quoted (s : string) : string :=
  String dquote (s +:+ String dquote "").

Definition text_line (s : string) : string := s +:+ String newline "".

(** A label-map file of two mids, the dictionary of the script's sample
    output, a dictionary that names one mid twice, one with a line that has
    no comma, one with Windows line ends and one with a tab before the
    line end. *)
Definition example_GFile (path : string) : string :=
  if decide (path = "classes.txt") then
    text_line "/m/068hy" +:+ text_line "/m/01yrx"
  else if decide (path = "dict.csv") then
    text_line ("/m/068hy," +:+ quoted "Pet")
    +:+ text_line ("/m/01yrx," +:+ quoted "Cat")
  else if decide (path = "twice.csv") then
    text_line ("/m/068hy," +:+ quoted "Pet")
    +:+ text_line ("/m/01yrx," +:+ quoted "Cat")
    +:+ text_line ("/m/068hy," +:+ quoted "Animal, domestic")
  else if decide (path = "broken.csv") then
    text_line ("/m/068hy," +:+ quoted "Pet") +:+ text_line "/m/01yrx"
  else if decide (path = "crlf.csv") then
    text_line ("/m/068hy," +:+ quoted "Pet" +:+ String carriage_return "")
  else if decide (path = "tab.csv") then
    text_line ("/m/068hy," +:+ quoted "Pet" +:+ String tab "")
  else if decide (path = "one.txt") then
    text_line "/m/068hy"
  else path.

Definition example_flags (top_k : Z) (score_threshold : option Q) : flags :=
  {| FLAGS_labelmap := "classes.txt"; FLAGS_dict := "dict.csv";
     FLAGS_image := "cat.jpg"; FLAGS_top_k := top_k;
     FLAGS_score_threshold := score_threshold |}.

Definition example_scores : list Q := [0.40; 0.96; 0.95; 0.96; 0.10]%Q.

(** A label map that is one entry short of the score vector. *)
Definition example_short_flags : flags :=
  {| FLAGS_labelmap := "one.txt"; FLAGS_dict := "dict.csv";
     FLAGS_image := "cat.jpg"; FLAGS_top_k := 2;
     FLAGS_score_threshold := None |}.

Definition example_label_dict : gmap string string :=
  <["/m/01yrx" := "Cat"]> (<["/m/068hy" := "Pet"]> ∅).

Definition example_sess_run (compressed_image : string) : list Q :=
  [0.96; 0.95]%Q.

(** A label-map file whose only line starts with a space. *)
Definition example_GFile_spaced (path : string) : string :=
  if decide (path = "spaced.txt") then text_line (String space "/m/068hy")
  else example_GFile path.

(** Flags that name the dictionary with a line without a comma, and
    flags that list every class with the short label map. *)
Definition example_broken_flags : flags :=
  {| FLAGS_labelmap := "classes.txt"; FLAGS_dict := "broken.csv";
     FLAGS_image := "cat.jpg"; FLAGS_top_k := 10;
     FLAGS_score_threshold := None |}.

Definition example_all_flags : flags :=
  {| FLAGS_labelmap := "one.txt"; FLAGS_dict := "dict.csv";
     FLAGS_image := "cat.jpg"; FLAGS_top_k := 0;
     FLAGS_score_threshold := None |}.

(** * Properties *)

(** ** The merge sort meets the contract of [argsort] *)

#[global] Instance score_leb_total v : Total (score_leb v).
Proof.
  intros i j. unfold score_leb. rewrite !Qle_bool_iff.
  destruct (Qlt_le_dec (score_at v j) (score_at v i)) as [H|H]; [right|left].
  - by apply Qlt_le_weak.
  - done.
Qed.

#[global] Instance score_leb_trans v : Transitive (score_leb v).
Proof.
  intros i j k. unfold score_leb. rewrite !Qle_bool_iff. apply Qle_trans.
Qed.

Lemma Sorted_weaken {A} (R1 R2 : relation A) l :
  (∀ x y, R1 x y → R2 x y) → Sorted R1 l → Sorted R2 l.
Proof.
  intros HR. induction 1 as [|x l Hl IH Hhd]; constructor; [done|].
  destruct Hhd; constructor; auto.
Qed.

Lemma merge_argsort_perm v : merge_argsort v ≡ₚ seq 0 (length v).
Proof. apply merge_sort_Permutation. Qed.

Lemma merge_argsort_sorted v : Sorted (ascending v) (merge_argsort v).
Proof.
  apply Sorted_weaken with (R1 := score_leb v).
  - intros i j. unfold score_leb, ascending. by rewrite Qle_bool_iff.
  - apply Sorted_merge_sort, _.
Qed.

Definition merge_argsort_impl : argsort_impl :=
  {| argsort := merge_argsort;
     argsort_perm := merge_argsort_perm;
     argsort_sorted := merge_argsort_sorted |}.

(** ** Ranking *)

Section Ranking.

Context (np_argsort : argsort_impl).
Implicit Types (v : list Q) (FLAGS : flags) (top_k : list nat).

Lemma getitem_lt {A} (l : list A) i :
  i < length l → ∃ x, l !! i = Some x ∧ getitem l i = Ok x.
Proof.
  intros Hi. destruct (lookup_lt_is_Some_2 l i Hi) as [x Hx].
  exists x. unfold getitem. by rewrite Hx.
Qed.

Lemma getitem_score v i : i < length v → getitem v i = Ok (score_at v i).
Proof.
  intros Hi. destruct (getitem_lt v i Hi) as (x & Hx & ->).
  unfold score_at. by rewrite Hx.
Qed.

Lemma descending_transitive v : Transitive (descending v).
Proof. intros i j k Hij Hjk. unfold descending in *. by eapply Qle_trans. Qed.

(** All indices, best score first. *)
Lemma reverse_argsort_perm v :
  reverse (np_argsort v) ≡ₚ seq 0 (length v).
Proof. rewrite reverse_Permutation. apply argsort_perm. Qed.

Lemma reverse_argsort_sorted v :
  StronglySorted (descending v) (reverse (np_argsort v)).
Proof.
  apply (@Sorted_StronglySorted _ _ (descending_transitive v)).
  apply (Sorted_reverse (ascending v)), argsort_sorted.
Qed.

Lemma reverse_argsort_NoDup v : NoDup (reverse (np_argsort v)).
Proof. rewrite reverse_argsort_perm. apply NoDup_seq. Qed.

Lemma reverse_argsort_in_range v i :
  i ∈ reverse (np_argsort v) ↔ i < length v.
Proof. rewrite reverse_argsort_perm, elem_of_seq. lia. Qed.

Lemma StronglySorted_take {A} (R : relation A) n (l : list A) :
  StronglySorted R l → StronglySorted R (take n l).
Proof.
  intros Hl. rewrite <-(take_drop n l) in Hl.
  by apply StronglySorted_app_1_l in Hl.
Qed.

Lemma StronglySorted_filter {A} (R : relation A) (P : A → Prop)
    `{!∀ x, Decision (P x)} (l : list A) :
  StronglySorted R l → StronglySorted R (filter P l).
Proof.
  induction 1 as [|x l Hl IH Hx]; [constructor|].
  rewrite filter_cons. case_decide; [|done].
  constructor; [done|].
  rewrite Forall_forall in Hx |- *. intros y [_ Hy]%list_elem_of_filter. auto.
Qed.

Lemma filter_threshold_in_range v t top_k :
  Forall (λ i, i < length v) top_k →
  filter_threshold v t top_k
  = Ok (filter (λ i, (t <= score_at v i)%Q) top_k).
Proof.
  induction 1 as [|i top_k Hi _ IH]; [done|].
  simpl. rewrite (getitem_score v i Hi). simpl. rewrite IH. simpl.
  rewrite filter_cons. unfold mret, result_ret. f_equal.
  destruct (Qle_bool t (score_at v i)) eqn:Hle.
  - apply Qle_bool_iff in Hle. by rewrite decide_True.
  - rewrite decide_False; [done|]. intros H%Qle_bool_iff. congruence.
Qed.

Lemma truncated_in_range FLAGS v :
  Forall (λ i, i < length v) (truncated np_argsort FLAGS v).
Proof.
  apply Forall_forall. intros i Hi. apply reverse_argsort_in_range.
  unfold truncated in Hi. case_bool_decide; [|done].
  by eapply subseteq_take.
Qed.

Lemma truncated_sorted FLAGS v :
  StronglySorted (descending v) (truncated np_argsort FLAGS v).
Proof.
  unfold truncated. case_bool_decide;
    auto using StronglySorted_take, reverse_argsort_sorted.
Qed.

Lemma truncated_NoDup FLAGS v : NoDup (truncated np_argsort FLAGS v).
Proof.
  unfold truncated. case_bool_decide; [|apply reverse_argsort_NoDup].
  eapply sublist_NoDup; [apply reverse_argsort_NoDup|apply sublist_take].
Qed.

Lemma ranked_unfold FLAGS v :
  ranked np_argsort FLAGS v =
  match FLAGS_score_threshold FLAGS with
  | Some t => Ok (filter (λ i, (t <= score_at v i)%Q) (truncated np_argsort FLAGS v))
  | None => Ok (truncated np_argsort FLAGS v)
  end.
Proof.
  unfold ranked.
  destruct (FLAGS_score_threshold FLAGS) as [t|]; [|done].
  apply filter_threshold_in_range, truncated_in_range.
Qed.

(** *** The tie-break order: the order in which [argsort] lists indices *)

Lemma listed_before_strict l : StrictOrder (listed_before l).
Proof.
  split.
  - intros i. unfold complement, listed_before. lia.
  - intros i j k. unfold listed_before. lia.
Qed.

Lemma listed_before_total l i j :
  listed_before l i j ∨ i = j ∨ listed_before l j i.
Proof. unfold listed_before. lia. Qed.

Lemma position_app_notin l1 l2 i :
  i ∉ l1 → position (l1 ++ l2) i = length l1 + position l2 i.
Proof.
  induction l1 as [|a l1 IH]; [done|].
  intros [Ha Hi]%not_elem_of_cons. simpl.
  rewrite decide_False by done. by rewrite IH.
Qed.

Lemma listed_before_split l1 i l2 j :
  NoDup (l1 ++ i :: l2) → j ∈ l2 → listed_before (l1 ++ i :: l2) i j.
Proof.
  intros (_ & Hl1 & [Hi _]%NoDup_cons)%NoDup_app Hj. left.
  assert (i ∉ l1) by (intros Hin; eapply Hl1; [done|left]).
  assert (j ∉ l1) by (intros Hin; eapply Hl1; [done|by right]).
  assert (j ≠ i) by (intros ->; done).
  rewrite !position_app_notin by done. simpl.
  rewrite decide_True by done. rewrite decide_False by done. lia.
Qed.

Lemma listed_before_sorted_suffix pre l :
  NoDup (pre ++ l) → StronglySorted (listed_before (pre ++ l)) l.
Proof.
  revert pre. induction l as [|i l IH]; intros pre Hnd; constructor.
  - replace (pre ++ i :: l) with ((pre ++ [i]) ++ l) in *
      by by rewrite <-app_assoc.
    by apply IH.
  - apply Forall_forall. intros j Hj. by apply listed_before_split.
Qed.

Lemma listed_before_sorted l : NoDup l → StronglySorted (listed_before l) l.
Proof. apply (listed_before_sorted_suffix []). Qed.

Lemma StronglySorted_and {A} (R1 R2 : relation A) (l : list A) :
  StronglySorted R1 l → StronglySorted R2 l →
  StronglySorted (λ x y, R1 x y ∧ R2 x y) l.
Proof.
  induction 1 as [|x l _ IH Hx]; [constructor|].
  intros [Hx' Hl']%StronglySorted_cons. constructor; [by apply IH|].
  rewrite Forall_forall in *. auto.
Qed.

Lemma StronglySorted_weaken {A} (R1 R2 : relation A) (l : list A) :
  (∀ x y, R1 x y → R2 x y) → StronglySorted R1 l → StronglySorted R2 l.
Proof.
  intros HR. induction 1 as [|x l _ IH Hx]; constructor; [done|].
  eapply Forall_impl; eauto.
Qed.

Lemma descending_ranks_before v (tie : relation nat) i j :
  descending v i j → tie i j → ranks_before v tie i j.
Proof.
  unfold descending, ranks_before. intros [Hlt|Heq]%Qle_lteq Ht; [by left|].
  right. split; [by symmetry|done].
Qed.

Lemma truncated_tie_break FLAGS v :
  StronglySorted
    (ranks_before v (listed_before (reverse (np_argsort v))))
    (truncated np_argsort FLAGS v).
Proof.
  apply StronglySorted_weaken with
    (R1 := λ i j, descending v i j
                  ∧ listed_before (reverse (np_argsort v)) i j).
  { intros i j [??]. by apply descending_ranks_before. }
  apply StronglySorted_and; [apply truncated_sorted|].
  pose proof (listed_before_sorted _ (reverse_argsort_NoDup v)) as Hs.
  unfold truncated. case_bool_decide; [|done]. by apply StronglySorted_take.
Qed.

(** C1: with a positive [top_k] and no score threshold, the ranking of a
    score vector of length N has exactly min(top_k, N) entries, ordered by
    descending score; the entries are distinct class indices, and entries
    of equal score follow one strict total order over indices (the order in
    which [argsort] lists them). *)
Theorem ranked_top_k FLAGS v :
  (0 < FLAGS_top_k FLAGS)%Z →
  FLAGS_score_threshold FLAGS = None →
  ∃ top_k,
    ranked np_argsort FLAGS v = Ok top_k
    ∧ length top_k = Z.to_nat (FLAGS_top_k FLAGS) `min` length v
    ∧ StronglySorted (descending v) top_k
    ∧ NoDup top_k
    ∧ Forall (λ i, i < length v) top_k
    ∧ ∃ tie : relation nat,
        StrictOrder tie
        ∧ (∀ i j, tie i j ∨ i = j ∨ tie j i)
        ∧ StronglySorted (ranks_before v tie) top_k.
Proof.
  intros Hk Hnone. exists (truncated np_argsort FLAGS v).
  split; [by rewrite ranked_unfold, Hnone|].
  split.
  { unfold truncated. rewrite bool_decide_eq_true_2 by done.
    rewrite length_take, length_reverse.
    by rewrite (Permutation_length (argsort_perm np_argsort v)), length_seq. }
  split; [apply truncated_sorted|].
  split; [apply truncated_NoDup|].
  split; [apply truncated_in_range|].
  exists (listed_before (reverse (np_argsort v))).
  split; [apply listed_before_strict|].
  split; [apply listed_before_total|apply truncated_tie_break].
Qed.

(** C2: with a positive [top_k] and a threshold [t], the ranking is the
    truncation to the first [top_k] entries filtered afterwards by the
    threshold: every final entry has a score of at least [t], the final
    entries are a sublist of the truncated ones, and there are at most
    min(top_k, N) of them. *)
Theorem ranked_threshold FLAGS v t :
  (0 < FLAGS_top_k FLAGS)%Z →
  FLAGS_score_threshold FLAGS = Some t →
  let kept := take (Z.to_nat (FLAGS_top_k FLAGS)) (reverse (np_argsort v)) in
  ∃ top_k,
    ranked np_argsort FLAGS v = Ok top_k
    ∧ top_k = filter (λ i, (t <= score_at v i)%Q) kept
    ∧ Forall (λ i, (t <= score_at v i)%Q) top_k
    ∧ top_k `sublist_of` kept
    ∧ (length top_k ≤ length kept)%nat
    ∧ length kept = Z.to_nat (FLAGS_top_k FLAGS) `min` length v.
Proof.
  intros Hk Hsome kept.
  assert (truncated np_argsort FLAGS v = kept) as Htr.
  { unfold truncated. by rewrite bool_decide_eq_true_2. }
  eexists. split; [by rewrite ranked_unfold, Hsome, Htr|].
  split; [done|].
  split.
  { apply Forall_forall. by intros i [? _]%list_elem_of_filter. }
  split; [apply sublist_filter|].
  split; [apply length_filter|].
  unfold kept. rewrite length_take, length_reverse.
  by rewrite (Permutation_length (argsort_perm np_argsort v)), length_seq.
Qed.

(** C5: with a zero or negative [top_k] and no score threshold nothing is
    cut off: the ranking holds each of the N class indices once, ordered by
    descending score. *)
Theorem ranked_unlimited FLAGS v :
  (FLAGS_top_k FLAGS ≤ 0)%Z →
  FLAGS_score_threshold FLAGS = None →
  ∃ top_k,
    ranked np_argsort FLAGS v = Ok top_k
    ∧ top_k ≡ₚ seq 0 (length v)
    ∧ length top_k = length v
    ∧ StronglySorted (descending v) top_k.
Proof.
  intros Hk Hnone. exists (reverse (np_argsort v)).
  assert (truncated np_argsort FLAGS v = reverse (np_argsort v)) as Htr.
  { unfold truncated. rewrite bool_decide_eq_false_2; [done|lia]. }
  split; [by rewrite ranked_unfold, Hnone, Htr|].
  split; [apply reverse_argsort_perm|].
  split; [|apply reverse_argsort_sorted].
  by rewrite reverse_argsort_perm, length_seq.
Qed.

End Ranking.

(** ** Strings *)

Lemma app_String c s t : String c s +:+ t = String c (s +:+ t).
Proof. done. Qed.

Lemma app_empty_l s : "" +:+ s = s.
Proof. done. Qed.

Lemma app_empty_r s : s +:+ "" = s.
Proof. induction s as [|c s IH]; [done|]. by rewrite app_String, IH. Qed.

Lemma app_assoc_string s t u : (s +:+ t) +:+ u = s +:+ (t +:+ u).
Proof. induction s as [|c s IH]; [done|]. by rewrite !app_String, IH. Qed.

Lemma contains_app c s t :
  contains c (s +:+ t) = contains c s || contains c t.
Proof.
  induction s as [|a s IH]; [done|].
  rewrite ?app_String. simpl. by case_decide.
Qed.

Lemma string_forall_app p s t :
  string_forall p (s +:+ t) = string_forall p s && string_forall p t.
Proof.
  induction s as [|a s IH]; [done|].
  rewrite ?app_String. simpl. rewrite IH. by destruct (p a).
Qed.

(** *** [split] at the first separator *)

Lemma split1_no_sep sep s : contains sep s = false → split1 sep s = [s].
Proof.
  induction s as [|c s IH]; [done|]. simpl.
  case_decide; [done|]. intros Hs. by rewrite IH.
Qed.

Lemma split1_app sep s t :
  contains sep s = false → split1 sep (s +:+ String sep t) = [s; t].
Proof.
  induction s as [|c s IH]; simpl.
  - intros _. by rewrite decide_True.
  - case_decide; [done|]. intros Hs. by rewrite IH.
Qed.

Lemma split1_sep sep s :
  contains sep s = true →
  ∃ f g, s = f +:+ String sep g ∧ contains sep f = false
         ∧ split1 sep s = [f; g].
Proof.
  induction s as [|c s IH]; [done|]. simpl. case_decide as Hc.
  - intros _. subst c. by exists "", s.
  - intros (f & g & -> & Hf & Hsp)%IH. exists (String c f), g.
    split; [done|]. simpl. rewrite decide_False by done.
    split; [done|]. by rewrite Hsp.
Qed.

(** *** [strip] *)

Lemma lstrip_by_all p s : string_forall p s = true → lstrip_by p s = "".
Proof.
  induction s as [|c s IH]; [done|]. simpl.
  intros [Hc Hs]%andb_true_iff. rewrite Hc. auto.
Qed.

Lemma rstrip_by_all p s : string_forall p s = true → rstrip_by p s = "".
Proof.
  induction s as [|c s IH]; [done|]. simpl.
  intros [Hc Hs]%andb_true_iff. by rewrite IH, Hc.
Qed.

Lemma lstrip_by_app_all p a s :
  string_forall p a = true → lstrip_by p (a +:+ s) = lstrip_by p s.
Proof.
  induction a as [|c a IH]; [done|]. simpl.
  intros [Hc Ha]%andb_true_iff. rewrite ?app_String. simpl. rewrite Hc. auto.
Qed.

Lemma rstrip_by_app_all p s b :
  string_forall p b = true → rstrip_by p (s +:+ b) = rstrip_by p s.
Proof.
  intros Hb. induction s as [|c s IH].
  - rewrite ?app_empty_l. by apply rstrip_by_all.
  - rewrite ?app_String. simpl. by rewrite IH.
Qed.

Lemma lstrip_by_first p s :
  (∀ c, first_char s = Some c → p c = false) → lstrip_by p s = s.
Proof. destruct s as [|c s]; [done|]. simpl. intros H. by rewrite H. Qed.

Lemma rstrip_by_last p s :
  (∀ c, last_char s = Some c → p c = false) → rstrip_by p s = s.
Proof.
  induction s as [|c s IH]; [done|]. destruct s as [|a r].
  - simpl. intros H. by rewrite H.
  - intros H. change (rstrip_by p (String c (String a r)))
      with (match rstrip_by p (String a r) with
            | "" => if p c then "" else String c ""
            | r' => String c r'
            end).
    rewrite IH; [done|]. intros c' Hc'. by apply H.
Qed.

Lemma strip_by_trimmed p s : trimmed p s → strip_by p s = s.
Proof.
  intros [Hf Hl]. unfold strip_by.
  rewrite lstrip_by_first by done. by apply rstrip_by_last.
Qed.

Lemma lstrip_by_app_r p s b :
  string_forall p b = true →
  rstrip_by p (lstrip_by p (s +:+ b)) = rstrip_by p (lstrip_by p s).
Proof.
  intros Hb. induction s as [|c s IH].
  - rewrite ?app_empty_l. rewrite lstrip_by_all by done. done.
  - rewrite ?app_String. simpl. destruct (p c); [done|].
    by rewrite <-app_String, rstrip_by_app_all.
Qed.

(** Characters of the set around a string do not change its [strip]. *)
Lemma strip_by_padded p a s b :
  string_forall p a = true → string_forall p b = true →
  strip_by p (a +:+ (s +:+ b)) = strip_by p s.
Proof.
  intros Ha Hb. unfold strip_by.
  rewrite lstrip_by_app_all by done. by apply lstrip_by_app_r.
Qed.

(** [rstrip] cuts off a run of characters of the set, and stops at the
    last character outside it. *)
Lemma rstrip_by_spec p s :
  ∃ ws, s = rstrip_by p s +:+ ws
        ∧ string_forall p ws = true
        ∧ ∀ c, last_char (rstrip_by p s) = Some c → p c = false.
Proof.
  induction s as [|c s (ws & Hs & Hws & Hlast)].
  { by exists "". }
  simpl. destruct (rstrip_by p s) as [|a r] eqn:Hr.
  - rewrite ?app_empty_l in Hs. subst ws. destruct (p c) eqn:Hc.
    + exists (String c s). simpl. by rewrite Hc, Hws.
    + exists s. split; [done|]. split; [done|].
      simpl. by intros ? [= <-].
  - exists ws. split; [by rewrite app_String, <-Hs|]. split; [done|].
    exact Hlast.
Qed.

(** *** Lines of a file *)

Lemma readlines_concat content :
  foldr String.app "" (readlines content) = drop_cr content.
Proof.
  induction content as [|c s IH]; [done|]. simpl.
  case_decide; [done|]. case_decide.
  - simpl. by rewrite IH.
  - destruct (readlines s) as [|l ls]; simpl in *.
    + by rewrite <-IH.
    + by rewrite app_String, IH.
Qed.

Lemma readlines_lines content :
  Forall (λ line, ∃ body, contains newline body = false
            ∧ (line = body +:+ String newline "" ∨ (line = body ∧ body ≠ "")))
         (readlines content).
Proof.
  induction content as [|c s IH]; [constructor|]. simpl.
  case_decide; [done|]. case_decide.
  - subst c. constructor; [|done]. exists "". split; [done|]. by left.
  - destruct (readlines s) as [|l ls].
    + repeat constructor. exists (String c ""). simpl.
      rewrite decide_False by done. split; [done|]. by right.
    + apply Forall_cons in IH as [(body & Hb & Hl) Hls].
      constructor; [|done]. exists (String c body). simpl.
      rewrite decide_False by done. split; [done|].
      destruct Hl as [->|[-> ?]]; [by left|by right].
Qed.

Lemma first_char_app s t : s ≠ "" → first_char (s +:+ t) = first_char s.
Proof. by destruct s. Qed.

(** [strip] cuts off a run of characters of the set at each end and stops
    at the first character outside it. *)
Lemma strip_by_spec p s :
  ∃ a b, s = a +:+ (strip_by p s +:+ b)
         ∧ string_forall p a = true ∧ string_forall p b = true
         ∧ trimmed p (strip_by p s).
Proof.
  assert (∃ a, s = a +:+ lstrip_by p s ∧ string_forall p a = true
               ∧ ∀ c, first_char (lstrip_by p s) = Some c → p c = false)
    as (a & Hs & Ha & Hfirst).
  { induction s as [|c s (a & Hs & Ha & Hf)]; [by exists ""|].
    simpl. destruct (p c) eqn:Hc.
    - exists (String c a). rewrite ?app_String, <-Hs. simpl.
      by rewrite Hc, Ha.
    - exists "". split; [done|]. split; [done|]. simpl. by intros ? [= <-]. }
  destruct (rstrip_by_spec p (lstrip_by p s)) as (b & Hl & Hb & Hlast).
  exists a, b. unfold strip_by. rewrite <-Hl.
  split; [done|]. split; [done|]. split; [done|]. split; [|done].
  intros c Hc. apply Hfirst. rewrite Hl.
  rewrite first_char_app; [done|]. intros Heq. by rewrite Heq in Hc.
Qed.

(** ** Loading the label tables *)

Section Loading.

Context (GFile : string → string).
Implicit Types (line : string) (lines : list string).
Implicit Types (label_dict : gmap string string).

Lemma line_fields f g :
  contains comma f = false →
  line_key (f +:+ String comma g) = strip_word f
  ∧ line_value (f +:+ String comma g) = strip_word g.
Proof.
  intros Hf. unfold line_key, line_value. by rewrite split1_app.
Qed.

Lemma LoadLabelMap_step_comma label_dict line :
  contains comma line = true →
  LoadLabelMap_step label_dict line = Ok (bind_line label_dict line).
Proof.
  intros (f & g & -> & Hf & Hsp)%split1_sep.
  unfold LoadLabelMap_step, bind_line, line_key, line_value.
  by rewrite Hsp.
Qed.

Lemma LoadLabelMap_step_no_comma label_dict line :
  contains comma line = false →
  LoadLabelMap_step label_dict line = Raise IndexError.
Proof.
  intros Hsp%split1_no_sep. unfold LoadLabelMap_step. by rewrite Hsp.
Qed.

Lemma LoadLabelMap_loop_ok lines label_dict :
  Forall (λ line, contains comma line = true) lines →
  LoadLabelMap_loop lines label_dict = Ok (foldl bind_line label_dict lines).
Proof.
  intros Hl. revert label_dict.
  induction Hl as [|line lines Hline _ IH]; intros label_dict; [done|].
  simpl. rewrite LoadLabelMap_step_comma by done. apply IH.
Qed.

Lemma LoadLabelMap_loop_raise lines label_dict :
  Exists (λ line, contains comma line = false) lines →
  LoadLabelMap_loop lines label_dict = Raise IndexError.
Proof.
  intros Hl. revert label_dict.
  induction Hl as [line lines Hline|line lines _ IH]; intros label_dict.
  - simpl. by rewrite LoadLabelMap_step_no_comma.
  - simpl. destruct (contains comma line) eqn:Hline.
    + rewrite LoadLabelMap_step_comma by done. apply IH.
    + by rewrite LoadLabelMap_step_no_comma.
Qed.

Lemma foldl_bind_line_other lines label_dict k :
  Forall (λ line, line_key line ≠ k) lines →
  foldl bind_line label_dict lines !! k = label_dict !! k.
Proof.
  intros Hl. revert label_dict.
  induction Hl as [|line lines Hline _ IH]; intros label_dict; [done|].
  simpl. rewrite IH. unfold bind_line. by rewrite lookup_insert_ne.
Qed.

Lemma foldl_bind_line_last pre line post label_dict :
  Forall (λ l, line_key l ≠ line_key line) post →
  foldl bind_line label_dict (pre ++ line :: post) !! line_key line
  = Some (line_value line).
Proof.
  intros Hpost. rewrite foldl_app. simpl.
  rewrite foldl_bind_line_other by done.
  unfold bind_line at 1. by rewrite lookup_insert_eq.
Qed.

Lemma LoadLabelMap_ok labelmap_path dict_path :
  Forall (λ line, contains comma line = true) (readlines (GFile dict_path)) →
  LoadLabelMap GFile labelmap_path dict_path
  = Ok (rstrip <$> readlines (GFile labelmap_path),
        foldl bind_line ∅ (readlines (GFile dict_path))).
Proof.
  intros Hd. unfold LoadLabelMap. by rewrite LoadLabelMap_loop_ok.
Qed.

Lemma in_strip_chars c :
  in_chars strip_chars c = true ↔ c = space ∨ c = dquote ∨ c = newline.
Proof.
  unfold in_chars, strip_chars. rewrite bool_decide_eq_true.
  rewrite !elem_of_cons, elem_of_nil. tauto.
Qed.

(** C3: when the dictionary file is well formed, [LoadLabelMap] returns
    a label map with one entry per line of the label-map file, in the
    order of the file: entry [i] is line [i] with its trailing whitespace
    cut off. *)
Theorem LoadLabelMap_labelmap labelmap_path dict_path :
  Forall (λ line, contains comma line = true) (readlines (GFile dict_path)) →
  ∃ labelmap label_dict,
    LoadLabelMap GFile labelmap_path dict_path = Ok (labelmap, label_dict)
    ∧ length labelmap = length (readlines (GFile labelmap_path))
    ∧ ∀ i line,
        readlines (GFile labelmap_path) !! i = Some line →
        ∃ mid ws,
          labelmap !! i = Some mid
          ∧ line = mid +:+ ws
          ∧ string_forall Ascii.is_space ws = true
          ∧ ∀ c, last_char mid = Some c → Ascii.is_space c = false.
Proof.
  intros Hd. eexists _, _. split; [by apply LoadLabelMap_ok|].
  split; [by rewrite length_fmap|].
  intros i line Hi.
  destruct (rstrip_by_spec Ascii.is_space line) as (ws & Hline & Hws & Hlast).
  exists (rstrip line), ws. rewrite list_lookup_fmap, Hi. done.
Qed.

(** C4 (amended): a dictionary line is split at its first comma only, and
    from both fields the leading and trailing characters among space,
    double quote and newline are cut off, no other ones: the set that is
    stripped holds exactly these three characters, so a tab, for one, is
    kept and ends the stripping.  The returned mapping binds the stripped
    first field to the stripped second field unless a later line has the
    same key; so for a line made of a mid, a comma and a quoted name,
    [label_dict[mid] == name] when neither starts or ends with one of the
    three characters.  Commas after the first one stay in the name. *)
Theorem LoadLabelMap_dict_entry labelmap_path dict_path pre f g post :
  readlines (GFile dict_path) = pre ++ (f +:+ String comma g) :: post →
  Forall (λ line, contains comma line = true) (readlines (GFile dict_path)) →
  contains comma f = false →
  Forall (λ line, line_key line ≠ strip_word f) post →
  ∃ labelmap label_dict,
    LoadLabelMap GFile labelmap_path dict_path = Ok (labelmap, label_dict)
    ∧ label_dict !! strip_word f = Some (strip_word g)
    ∧ (∀ c, in_chars strip_chars c = true
            ↔ c = space ∨ c = dquote ∨ c = newline)
    ∧ (∃ a b, f = a +:+ (strip_word f +:+ b)
              ∧ string_forall (in_chars strip_chars) a = true
              ∧ string_forall (in_chars strip_chars) b = true
              ∧ trimmed (in_chars strip_chars) (strip_word f))
    ∧ (∃ a b, g = a +:+ (strip_word g +:+ b)
              ∧ string_forall (in_chars strip_chars) a = true
              ∧ string_forall (in_chars strip_chars) b = true
              ∧ trimmed (in_chars strip_chars) (strip_word g))
    ∧ ∀ name eol,
        g = String dquote (name +:+ String dquote eol) →
        eol = "" ∨ eol = String newline "" →
        trimmed (in_chars strip_chars) f →
        trimmed (in_chars strip_chars) name →
        label_dict !! f = Some name.
Proof.
  intros Hlines Hd Hf Hpost. eexists _, _.
  split; [by apply LoadLabelMap_ok|].
  destruct (line_fields f g Hf) as [Hkey Hval].
  assert (foldl bind_line ∅ (readlines (GFile dict_path)) !! strip_word f
          = Some (strip_word g)) as Hlook.
  { rewrite Hlines, <-Hkey, <-Hval. apply foldl_bind_line_last.
    by rewrite Hkey. }
  split; [done|]. split; [apply in_strip_chars|].
  split; [apply strip_by_spec|]. split; [apply strip_by_spec|].
  intros name eol -> Heol Hmid Hname.
  assert (strip_word f = f) as Hf' by by apply strip_by_trimmed.
  rewrite Hf' in Hlook. rewrite Hlook. f_equal.
  unfold strip_word.
  change (String dquote (name +:+ String dquote eol))
    with (String dquote "" +:+ (name +:+ String dquote eol)).
  rewrite strip_by_padded; [by apply strip_by_trimmed|done|].
  by destruct Heol as [-> | ->].
Qed.

(** C9: a dictionary line without a comma is not guarded against: reading
    its second field raises [IndexError], and so does [LoadLabelMap]; no
    mapping is returned. *)
Theorem LoadLabelMap_no_comma labelmap_path dict_path line :
  line ∈ readlines (GFile dict_path) →
  contains comma line = false →
  getitem (strip_word <$> split1 comma line) 1 = Raise IndexError
  ∧ LoadLabelMap GFile labelmap_path dict_path = Raise IndexError.
Proof.
  intros Hin Hline. split.
  - by rewrite split1_no_sep.
  - unfold LoadLabelMap. rewrite LoadLabelMap_loop_raise; [done|].
    apply Exists_exists. eauto.
Qed.

(** C10: when several lines of the dictionary file have the same stripped
    first field, nothing is rejected and the returned mapping binds that mid
    to the display name of the last of them. *)
Theorem LoadLabelMap_duplicate_mid
    labelmap_path dict_path pre earlier between later post mid :
  readlines (GFile dict_path) = pre ++ earlier :: between ++ later :: post →
  Forall (λ line, contains comma line = true) (readlines (GFile dict_path)) →
  line_key earlier = mid →
  line_key later = mid →
  Forall (λ line, line_key line ≠ mid) post →
  ∃ labelmap label_dict,
    LoadLabelMap GFile labelmap_path dict_path = Ok (labelmap, label_dict)
    ∧ label_dict !! mid = Some (line_value later).
Proof.
  intros Hlines Hd _ Hlater Hpost. eexists _, _.
  split; [by apply LoadLabelMap_ok|].
  rewrite Hlines. subst mid.
  replace (pre ++ earlier :: between ++ later :: post)
    with ((pre ++ earlier :: between) ++ later :: post)
    by by rewrite <-app_assoc.
  by apply foldl_bind_line_last.
Qed.

End Loading.

(** ** Number formatting *)

Lemma length_app_string s t :
  String.length (s +:+ t) = String.length s + String.length t.
Proof. induction s as [|c s IH]; [done|]. rewrite ?app_String. simpl. lia. Qed.

Lemma length_zeros n : String.length (zeros n) = n.
Proof. induction n as [|n IH]; [done|]. simpl. by rewrite IH. Qed.

Lemma length_string_of_uint d :
  String.length (NilEmpty.string_of_uint d) = Unsigned.usize d.
Proof. induction d; simpl; by rewrite ?IHd. Qed.

Lemma usize_revapp d d' :
  Unsigned.usize (Decimal.revapp d d') = Unsigned.usize d + Unsigned.usize d'.
Proof. revert d'. induction d; intros d'; simpl; rewrite ?IHd; simpl; lia. Qed.

Lemma to_lu_digit r m :
  r < 10 → m ≠ 0 →
  Unsigned.usize (Unsigned.to_lu (r + 10 * m))
  = S (Unsigned.usize (Unsigned.to_lu m)).
Proof.
  intros Hr Hm.
  assert (∀ k, Unsigned.to_lu (k + 10 * m)
               = Nat.iter k Decimal.Little.succ (Unsigned.to_lu (10 * m)))
    as Hiter.
  { intros k. induction k as [|k IH]; [done|].
    change (S k + 10 * m) with (S (k + 10 * m)).
    by rewrite Unsigned.to_lu_succ, IH, Nat.iter_succ. }
  rewrite Hiter, Unsigned.to_lu_tenfold by done.
  do 10 (destruct r as [|r]; [done|]). lia.
Qed.

(** A number below [10 ^ k] has at most [k] decimal digits. *)
Lemma usize_to_lu_bound k n :
  n < 10 ^ S k → (Unsigned.usize (Unsigned.to_lu n) ≤ S k)%nat.
Proof.
  revert n. induction k as [|k IH]; intros n Hn.
  - change (10 ^ 1) with 10 in Hn.
    do 10 (destruct n as [|n]; [simpl; lia|]). lia.
  - destruct (decide (n / 10 = 0)) as [Hz|Hnz].
    + apply Nat.div_small_iff in Hz; [|done].
      do 10 (destruct n as [|n]; [simpl; lia|]). lia.
    + rewrite (Nat.div_mod_eq n 10), Nat.add_comm.
      rewrite to_lu_digit; [|by apply Nat.mod_upper_bound|done].
      apply le_n_S, IH.
      apply Nat.Div0.div_lt_upper_bound.
      by rewrite Nat.pow_succ_r' in Hn.
Qed.

Lemma length_decimal_bound k n :
  n < 10 ^ S k → (String.length (decimal n) ≤ S k)%nat.
Proof.
  intros Hn. unfold decimal, NilZero.string_of_uint.
  destruct (Nat.to_uint n) eqn:Hd; [simpl; lia|..];
    rewrite <-Hd, length_string_of_uint, Unsigned.to_uint_alt;
    unfold Decimal.rev; rewrite usize_revapp; simpl;
    rewrite Nat.add_0_r; by apply usize_to_lu_bound.
Qed.

Lemma length_format_04d idx :
  String.length (format_04d idx) = 4 `max` String.length (decimal idx).
Proof.
  unfold format_04d. rewrite length_app_string, length_zeros. lia.
Qed.

Lemma uint_of_string_zeros n s d :
  NilEmpty.uint_of_string s = Some d →
  NilEmpty.uint_of_string (zeros n +:+ s) = Some (Nat.iter n Decimal.D0 d).
Proof.
  intros Hs. induction n as [|n IH]; [done|].
  change (zeros (S n) +:+ s) with (String "0" (zeros n +:+ s)).
  simpl. by rewrite IH.
Qed.

Lemma of_uint_zeros n d :
  Nat.of_uint (Nat.iter n Decimal.D0 d) = Nat.of_uint d.
Proof. induction n as [|n IH]; [done|]. by rewrite Nat.iter_succ, <-IH. Qed.

(** The index field reads back as the index. *)
Lemma format_04d_value idx :
  ∃ d, NilEmpty.uint_of_string (format_04d idx) = Some d
       ∧ Nat.of_uint d = idx.
Proof.
  unfold format_04d, decimal.
  assert (∃ d, NilEmpty.uint_of_string
                 (NilZero.string_of_uint (Nat.to_uint idx)) = Some d
               ∧ Nat.of_uint d = idx) as (d & Hd & Hv).
  { destruct (Nat.to_uint idx) eqn:Hu;
      [exists Decimal.zero; split; [done|];
       by rewrite <-(Unsigned.of_to idx), Hu|..];
      rewrite <-Hu; exists (Nat.to_uint idx);
      (split; [|apply Unsigned.of_to]);
      rewrite Hu; apply NilEmpty.usu. }
  eexists. split; [by apply uint_of_string_zeros|].
  by rewrite of_uint_zeros.
Qed.

Lemma round_half_even_nearest q :
  (Qabs (q - inject_Z (round_half_even q)) <= 1 # 2)%Q.
Proof.
  destruct q as [n d]. apply Qabs_Qle_condition.
  unfold round_half_even, Qle, Qminus, Qplus, Qopp, inject_Z. simpl.
  pose proof (Z.div_mod n (Z.pos d) ltac:(lia)) as Hdiv.
  pose proof (Z.mod_pos_bound n (Z.pos d) ltac:(lia)) as Hmod.
  set (f := (n / Z.pos d)%Z) in *. set (r := (n mod Z.pos d)%Z) in *.
  repeat case_match; rewrite ?Z.ltb_lt, ?Z.ltb_ge in *; nia.
Qed.

Lemma round_half_even_nonneg q : (0 <= q)%Q → (0 ≤ round_half_even q)%Z.
Proof.
  destruct q as [n d]. unfold Qle, round_half_even. simpl. intros Hn.
  assert (0 ≤ n / Z.pos d)%Z by (apply Z.div_pos; lia).
  repeat case_match; lia.
Qed.

(** On a tie the even neighbour is taken. *)
Lemma round_half_even_tie q :
  (Qabs (q - inject_Z (round_half_even q)) == 1 # 2)%Q →
  Z.even (round_half_even q) = true.
Proof.
  destruct q as [n d].
  unfold round_half_even, Qeq, Qminus, Qplus, Qopp, inject_Z, Qabs. simpl.
  pose proof (Z.div_mod n (Z.pos d) ltac:(lia)) as Hdiv.
  pose proof (Z.mod_pos_bound n (Z.pos d) ltac:(lia)) as Hmod.
  set (f := (n / Z.pos d)%Z) in *. set (r := (n mod Z.pos d)%Z) in *.
  destruct (2 * r <? Z.pos d)%Z eqn:H1; [rewrite Z.ltb_lt in H1; nia|].
  destruct (Z.pos d <? 2 * r)%Z eqn:H2; [rewrite Z.ltb_lt in H2; nia|].
  intros _. destruct (Z.even f) eqn:Hf; [done|].
  by rewrite Z.even_add, Hf.
Qed.

Lemma hundredths_nonneg q : (0 ≤ hundredths q)%Z.
Proof.
  apply round_half_even_nonneg.
  apply Qmult_le_0_compat; [apply Qabs_nonneg|done].
Qed.

Lemma digit_decimal d :
  (0 ≤ d < 10)%Z → String (digit d) "" = decimal (Z.to_nat d).
Proof.
  intros Hd.
  assert (d = 0 ∨ d = 1 ∨ d = 2 ∨ d = 3 ∨ d = 4 ∨ d = 5 ∨ d = 6 ∨ d = 7
          ∨ d = 8 ∨ d = 9)%Z as Hcases by lia.
  repeat (destruct Hcases as [->|Hcases]; [done|]). by subst d.
Qed.

(** The score field: the sign, then the hundredths nearest to the
    magnitude of the score written with two digits after the point. *)
Lemma format_2f_spec q :
  ∃ units tenths hundredth,
    (0 ≤ units ∧ 0 ≤ tenths < 10 ∧ 0 ≤ hundredth < 10)%Z
    ∧ (Qabs (Qabs q * 100
             - inject_Z (100 * units + 10 * tenths + hundredth)) <= 1 # 2)%Q
    ∧ format_2f q
      = (if Qle_bool 0 q then "" else "-")
        +:+ decimal (Z.to_nat units) +:+ "."
        +:+ decimal (Z.to_nat tenths) +:+ decimal (Z.to_nat hundredth).
Proof.
  pose proof (hundredths_nonneg q) as Hh.
  exists (hundredths q / 100)%Z, (hundredths q mod 100 / 10)%Z,
         (hundredths q mod 10)%Z.
  assert (0 ≤ hundredths q mod 100 / 10 < 10)%Z as Ht.
  { pose proof (Z.mod_pos_bound (hundredths q) 100 ltac:(lia)).
    split; [apply Z.div_pos; lia|apply Z.div_lt_upper_bound; lia]. }
  pose proof (Z.mod_pos_bound (hundredths q) 10 ltac:(lia)) as Hu.
  split; [split; [apply Z.div_pos; lia|done]|].
  split.
  { replace (100 * (hundredths q / 100) + 10 * (hundredths q mod 100 / 10)
             + hundredths q mod 10)%Z with (hundredths q).
    - apply round_half_even_nearest.
    - rewrite (Z.div_mod (hundredths q) 100) at 1 by lia.
      rewrite (Z.div_mod (hundredths q mod 100) 10) at 1 by lia.
      rewrite (Z.mod_mod_divide (hundredths q) 100 10) by by exists 10%Z.
      lia. }
  unfold format_2f.
  by rewrite <-(digit_decimal (hundredths q mod 100 / 10)),
    <-(digit_decimal (hundredths q mod 10)).
Qed.

(** ** Printing *)

Section Printing.

Context (GFile : string → string) (np_argsort : argsort_impl).
Context (sess_run : string → list Q).
Implicit Types (FLAGS : flags) (labelmap : list string).
Implicit Types (label_dict : gmap string string) (v : list Q).
Implicit Types (top_k : list nat) (out lines : list string).

Lemma ranked_in_range FLAGS v top_k :
  ranked np_argsort FLAGS v = Ok top_k → Forall (λ i, i < length v) top_k.
Proof.
  rewrite ranked_unfold.
  pose proof (truncated_in_range np_argsort FLAGS v) as Hall.
  rewrite Forall_forall in Hall.
  destruct (FLAGS_score_threshold FLAGS); intros [= <-]; apply Forall_forall;
    [|done].
  intros i [_ Hi]%list_elem_of_filter. by apply Hall.
Qed.

Lemma print_result_ok labelmap label_dict v idx line out :
  result_line labelmap label_dict v idx line →
  print_result labelmap label_dict v idx out = (out ++ [line], Ok ()).
Proof.
  intros (mid & display_name & score & Hmid & Hname & Hscore & ->).
  unfold print_result, io_bind, lift, getitem, dict_getitem, print.
  by rewrite Hmid, Hname, Hscore.
Qed.

Lemma print_result_IndexError labelmap label_dict v idx out :
  labelmap !! idx = None →
  print_result labelmap label_dict v idx out = (out, Raise IndexError).
Proof.
  intros Hmid. unfold print_result, io_bind, lift, getitem.
  by rewrite Hmid.
Qed.

Lemma print_result_KeyError labelmap label_dict v idx mid out :
  labelmap !! idx = Some mid → label_dict !! mid = None →
  print_result labelmap label_dict v idx out = (out, Raise KeyError).
Proof.
  intros Hmid Hname. unfold print_result, io_bind, lift, getitem, dict_getitem.
  by rewrite Hmid, Hname.
Qed.

Lemma for_each_print_result_ok labelmap label_dict v top_k lines out :
  Forall2 (result_line labelmap label_dict v) top_k lines →
  for_each top_k (print_result labelmap label_dict v) out
  = (out ++ lines, Ok ()).
Proof.
  intros Hl. revert out.
  induction Hl as [|idx line top_k lines Hline _ IH]; intros out.
  - simpl. unfold io_ret. by rewrite app_nil_r.
  - simpl. unfold io_bind. rewrite (print_result_ok _ _ _ _ line) by done.
    rewrite IH. by rewrite <-app_assoc.
Qed.

(** An exception in one iteration ends the loop with an exception. *)
Lemma for_each_raises {A} (xs : list A) (body : A → io unit) x :
  x ∈ xs →
  (∀ out, ∃ out' e, body x out = (out', Raise e)) →
  ∀ out, ∃ out' e, for_each xs body out = (out', Raise e).
Proof.
  intros Hx Hbody. induction xs as [|a xs IH]; intros out.
  { by apply elem_of_nil in Hx. }
  simpl. unfold io_bind. destruct (body a out) as [out1 [[]|e]] eqn:Ha.
  - apply elem_of_cons in Hx as [->|Hx]; [|by apply IH].
    destruct (Hbody out) as (? & ? & ?). congruence.
  - eauto.
Qed.

Lemma resolvable_result_lines labelmap label_dict v top_k :
  Forall (λ i, i < length v) top_k →
  Forall (λ idx, ∃ mid, labelmap !! idx = Some mid
                        ∧ is_Some (label_dict !! mid)) top_k →
  ∃ lines, Forall2 (result_line labelmap label_dict v) top_k lines.
Proof.
  induction 1 as [|idx top_k Hidx _ IH].
  { intros _. exists []. constructor. }
  intros [(mid & Hmid & name & Hname) (lines & Hl)%IH]%Forall_cons.
  destruct (lookup_lt_is_Some_2 v idx Hidx) as [score Hscore].
  exists (format_line idx mid name score :: lines).
  constructor; [|done]. by exists mid, name, score.
Qed.

Lemma classify_image_ok FLAGS labelmap label_dict fn top_k lines out :
  ranked np_argsort FLAGS (sess_run (GFile fn)) = Ok top_k →
  Forall2 (result_line labelmap label_dict (sess_run (GFile fn))) top_k lines →
  classify_image GFile np_argsort sess_run FLAGS labelmap label_dict fn out
  = (out ++ format_header fn :: lines, Ok ()).
Proof.
  intros Hr Hl. unfold classify_image, io_bind, lift at 1. rewrite Hr.
  unfold print. rewrite (for_each_print_result_ok _ _ _ _ lines) by done.
  by rewrite <-app_assoc.
Qed.

Lemma ranked_total FLAGS v : ∃ top_k, ranked np_argsort FLAGS v = Ok top_k.
Proof.
  rewrite ranked_unfold. destruct (FLAGS_score_threshold FLAGS); eauto.
Qed.

Lemma classify_image_block FLAGS labelmap label_dict fn out :
  (∀ top_k, ranked np_argsort FLAGS (sess_run (GFile fn)) = Ok top_k →
            Forall (λ idx, ∃ mid, labelmap !! idx = Some mid
                                  ∧ is_Some (label_dict !! mid)) top_k) →
  ∃ block,
    image_block GFile np_argsort sess_run FLAGS labelmap label_dict fn block
    ∧ classify_image GFile np_argsort sess_run FLAGS labelmap label_dict fn out
      = (out ++ block, Ok ()).
Proof.
  intros Hres.
  destruct (ranked_total FLAGS (sess_run (GFile fn))) as [top_k Hr].
  destruct (resolvable_result_lines labelmap label_dict (sess_run (GFile fn))
              top_k) as [lines Hl]; [by eapply ranked_in_range|by apply Hres|].
  exists (format_header fn :: lines). split.
  - by exists top_k, lines.
  - by apply (classify_image_ok _ _ _ _ top_k).
Qed.

Lemma for_each_classify_image FLAGS labelmap label_dict images out :
  (∀ fn top_k, fn ∈ images →
     ranked np_argsort FLAGS (sess_run (GFile fn)) = Ok top_k →
     Forall (λ idx, ∃ mid, labelmap !! idx = Some mid
                           ∧ is_Some (label_dict !! mid)) top_k) →
  ∃ blocks,
    Forall2 (image_block GFile np_argsort sess_run FLAGS labelmap label_dict)
            images blocks
    ∧ for_each images
        (classify_image GFile np_argsort sess_run FLAGS labelmap label_dict)
        out
      = (out ++ concat blocks, Ok ()).
Proof.
  revert out. induction images as [|fn images IH]; intros out Hres.
  { exists []. split; [constructor|]. simpl. unfold io_ret.
    by rewrite app_nil_r. }
  destruct (classify_image_block FLAGS labelmap label_dict fn out)
    as (block & Hblock & Hrun).
  { intros top_k. apply Hres. left. }
  destruct (IH (out ++ block)) as (blocks & Hblocks & Hrest).
  { intros fn' top_k Hin. apply Hres. by right. }
  exists (block :: blocks). split; [by constructor|].
  simpl. unfold io_bind. rewrite Hrun, Hrest. by rewrite <-app_assoc.
Qed.

(** The fields of a result line. *)
Lemma format_line_spec idx mid display_name score :
  format_line idx mid display_name score
  = format_04d idx +:+ ": " +:+ mid +:+ " - " +:+ display_name
    +:+ " (score = " +:+ format_2f score +:+ ")"
  ∧ String.length (format_04d idx) = 4 `max` String.length (decimal idx)
  ∧ (idx < 10 ^ 4 → String.length (format_04d idx) = 4)
  ∧ (∃ d, NilEmpty.uint_of_string (format_04d idx) = Some d
          ∧ Nat.of_uint d = idx)
  ∧ ∃ units tenths hundredth,
      (0 ≤ units ∧ 0 ≤ tenths < 10 ∧ 0 ≤ hundredth < 10)%Z
      ∧ (Qabs (Qabs score * 100
               - inject_Z (100 * units + 10 * tenths + hundredth))
         <= 1 # 2)%Q
      ∧ format_2f score
        = (if Qle_bool 0 score then "" else "-")
          +:+ decimal (Z.to_nat units) +:+ "."
          +:+ decimal (Z.to_nat tenths) +:+ decimal (Z.to_nat hundredth).
Proof.
  split; [done|]. split; [apply length_format_04d|].
  split.
  { intros Hidx. rewrite length_format_04d.
    pose proof (length_decimal_bound 3 idx Hidx). lia. }
  split; [apply format_04d_value|apply format_2f_spec].
Qed.

(** C6: a result line is the index padded with zeros to four digits, a
    colon and a space, the mid, [ - ], the display name and the score with
    two decimals in [ (score = X.XX)]; the run prints for each image, in
    turn, the header with the file name and then one such line per ranked
    entry, in ranking order. *)
Theorem main_prints FLAGS labelmap label_dict out :
  LoadLabelMap GFile (FLAGS_labelmap FLAGS) (FLAGS_dict FLAGS)
  = Ok (labelmap, label_dict) →
  (∀ fn top_k, fn ∈ split space (FLAGS_image FLAGS) →
     ranked np_argsort FLAGS (sess_run (GFile fn)) = Ok top_k →
     Forall (λ idx, ∃ mid, labelmap !! idx = Some mid
                           ∧ is_Some (label_dict !! mid)) top_k) →
  ∃ blocks,
    main GFile np_argsort sess_run FLAGS out = (out ++ concat blocks, Ok ())
    ∧ Forall2 (λ fn block,
         ∃ top_k lines,
           ranked np_argsort FLAGS (sess_run (GFile fn)) = Ok top_k
           ∧ block = format_header fn :: lines
           ∧ format_header fn
             = "Image: " +:+ String dquote fn
               +:+ String dquote (String newline "")
           ∧ Forall2 (λ idx line,
                ∃ mid display_name score,
                  labelmap !! idx = Some mid
                  ∧ label_dict !! mid = Some display_name
                  ∧ sess_run (GFile fn) !! idx = Some score
                  ∧ line = format_04d idx +:+ ": " +:+ mid +:+ " - "
                           +:+ display_name +:+ " (score = "
                           +:+ format_2f score +:+ ")")
              top_k lines)
       (split space (FLAGS_image FLAGS)) blocks
    ∧ (∀ idx,
         String.length (format_04d idx) = 4 `max` String.length (decimal idx)
         ∧ (idx < 10 ^ 4 → String.length (format_04d idx) = 4)
         ∧ ∃ d, NilEmpty.uint_of_string (format_04d idx) = Some d
                ∧ Nat.of_uint d = idx)
    ∧ (∀ score,
         ∃ units tenths hundredth,
           (0 ≤ units ∧ 0 ≤ tenths < 10 ∧ 0 ≤ hundredth < 10)%Z
           ∧ (Qabs (Qabs score * 100
                    - inject_Z (100 * units + 10 * tenths + hundredth))
              <= 1 # 2)%Q
           ∧ format_2f score
             = (if Qle_bool 0 score then "" else "-")
               +:+ decimal (Z.to_nat units) +:+ "."
               +:+ decimal (Z.to_nat tenths)
               +:+ decimal (Z.to_nat hundredth))
    ∧ format_line 3272 "/m/068hy" "Pet" 0.96
      = "3272: /m/068hy - Pet (score = 0.96)".
Proof.
  intros Hload Hres.
  destruct (for_each_classify_image FLAGS labelmap label_dict
              (split space (FLAGS_image FLAGS)) out Hres)
    as (blocks & Hblocks & Hrun).
  exists blocks. split.
  { unfold main, io_bind, lift. by rewrite Hload. }
  split.
  { eapply Forall2_impl; [exact Hblocks|].
    intros fn block (top_k & lines & Hr & -> & Hlines).
    exists top_k, lines. do 3 (split; [done|]). exact Hlines. }
  split.
  { intros idx.
    destruct (format_line_spec idx "" "" 0) as (_ & H1 & H2 & H3 & _).
    done. }
  split; [|by vm_compute].
  intros score. by destruct (format_line_spec 0 "" "" score) as (_&_&_&_&?).
Qed.

(** C8: when a ranked class index is outside the label map, printing its
    line raises [IndexError]; when its mid is not a key of the dictionary
    it raises [KeyError].  Nothing handles either: the image's results and
    the whole run end with the exception. *)
Theorem main_lookup_error FLAGS labelmap label_dict fn top_k idx out :
  LoadLabelMap GFile (FLAGS_labelmap FLAGS) (FLAGS_dict FLAGS)
  = Ok (labelmap, label_dict) →
  fn ∈ split space (FLAGS_image FLAGS) →
  ranked np_argsort FLAGS (sess_run (GFile fn)) = Ok top_k →
  idx ∈ top_k →
  labelmap !! idx = None
  ∨ (∃ mid, labelmap !! idx = Some mid ∧ label_dict !! mid = None) →
  (∀ o, print_result labelmap label_dict (sess_run (GFile fn)) idx o
        = (o, Raise (match labelmap !! idx with
                     | Some _ => KeyError
                     | None => IndexError
                     end)))
  ∧ (∀ o, ∃ o' e,
       classify_image GFile np_argsort sess_run FLAGS labelmap label_dict fn o
       = (o', Raise e))
  ∧ ∃ out' e, main GFile np_argsort sess_run FLAGS out = (out', Raise e).
Proof.
  intros Hload Hfn Hr Hidx Hbad.
  assert (∀ o, print_result labelmap label_dict (sess_run (GFile fn)) idx o
               = (o, Raise (match labelmap !! idx with
                     | Some _ => KeyError
                     | None => IndexError
                     end)))
    as Hprint.
  { intros o. destruct Hbad as [Hnone|(mid & Hmid & Hname)].
    - rewrite Hnone. by apply print_result_IndexError.
    - rewrite Hmid. by eapply print_result_KeyError. }
  assert (∀ o, ∃ o' e,
            classify_image GFile np_argsort sess_run FLAGS labelmap
              label_dict fn o = (o', Raise e)) as Himage.
  { intros o. unfold classify_image, io_bind, lift at 1. rewrite Hr.
    unfold print. eapply for_each_raises; [done|]. eauto. }
  split; [done|]. split; [done|].
  unfold main, io_bind, lift. rewrite Hload. simpl.
  by eapply for_each_raises.
Qed.

(** With two scores the contract fixes [argsort]. *)
Lemma argsort_two (s0 s1 : Q) : (s1 < s0)%Q → np_argsort [s0; s1] = [1; 0].
Proof.
  intros Hlt. pose proof (argsort_perm np_argsort [s0; s1]) as Hp.
  pose proof (argsort_sorted np_argsort [s0; s1]) as Hs.
  simpl in Hp. symmetry in Hp.
  apply Permutation_length_2_inv in Hp as [Hp|Hp]; [|done].
  rewrite Hp in Hs. apply Sorted_inv in Hs as [_ Hhd].
  apply HdRel_inv in Hhd. unfold ascending, score_at in Hhd. simpl in Hhd.
  by apply Qle_not_lt in Hhd.
Qed.

Lemma classify_image_top_1 (s0 s1 : Q) FLAGS labelmap label_dict fn out
    mid display_name :
  (s1 < s0)%Q →
  sess_run (GFile fn) = [s0; s1] →
  FLAGS_top_k FLAGS = 1%Z →
  FLAGS_score_threshold FLAGS = None →
  labelmap !! 0 = Some mid →
  label_dict !! mid = Some display_name →
  classify_image GFile np_argsort sess_run FLAGS labelmap label_dict fn out
  = (out ++ [format_header fn; format_line 0 mid display_name s0], Ok ()).
Proof.
  intros Hlt Hv Hk Hnone Hmid Hname.
  apply classify_image_ok with (top_k := [0]).
  - rewrite ranked_unfold, Hnone. unfold truncated.
    by rewrite Hv, Hk, argsort_two.
  - constructor; [|constructor]. exists mid, display_name, s0.
    by rewrite Hv.
Qed.

End Printing.

(** C7: with the label map [/m/068hy; /m/01yrx], the dictionary that maps
    /m/068hy to Pet and /m/01yrx to Cat, the score vector [0.96; 0.95],
    [top_k = 1] and no threshold, exactly one result line follows the
    header: [0000: /m/068hy - Pet (score = 0.96)]. *)
Theorem classify_image_pet GFile (np_argsort : argsort_impl)
    labelmap_path dict_path image fn out :
  classify_image GFile np_argsort (λ _, [0.96; 0.95]%Q)
    {| FLAGS_labelmap := labelmap_path; FLAGS_dict := dict_path;
       FLAGS_image := image; FLAGS_top_k := 1;
       FLAGS_score_threshold := None |}
    ["/m/068hy"; "/m/01yrx"]
    (<["/m/068hy" := "Pet"]> (<["/m/01yrx" := "Cat"]> ∅))
    fn out
  = (out ++ [format_header fn; "0000: /m/068hy - Pet (score = 0.96)"], Ok ()).
Proof.
  by rewrite (classify_image_top_1 GFile np_argsort _ 0.96 0.95 _ _ _ _ _
                "/m/068hy" "Pet").
Qed.

(** ** The theorems at the example inputs *)

Lemma ranked_top_k_example :
  (0 < FLAGS_top_k (example_flags 3 None))%Z
  ∧ FLAGS_score_threshold (example_flags 3 None) = None
  ∧ ∃ top_k,
      ranked merge_argsort_impl (example_flags 3 None) example_scores
      = Ok top_k
      ∧ length top_k = 3
      ∧ StronglySorted (descending example_scores) top_k
      ∧ NoDup top_k.
Proof.
  assert (0 < FLAGS_top_k (example_flags 3 None))%Z as Hk by (simpl; lia).
  split; [exact Hk|]. split; [reflexivity|].
  destruct (ranked_top_k merge_argsort_impl (example_flags 3 None)
              example_scores Hk eq_refl)
    as (top_k & Hr & Hlen & Hsorted & Hnd & _).
  exists top_k. split; [exact Hr|]. split; [exact Hlen|].
  split; [exact Hsorted|exact Hnd].
Defined.

Lemma ranked_threshold_example :
  (0 < FLAGS_top_k (example_flags 3 (Some 0.5%Q)))%Z
  ∧ FLAGS_score_threshold (example_flags 3 (Some 0.5%Q)) = Some 0.5%Q
  ∧ ∃ top_k,
      ranked merge_argsort_impl (example_flags 3 (Some 0.5%Q)) example_scores
      = Ok top_k
      ∧ Forall (λ i, (0.5 <= score_at example_scores i)%Q) top_k
      ∧ (length top_k ≤ 3)%nat.
Proof.
  assert (0 < FLAGS_top_k (example_flags 3 (Some 0.5%Q)))%Z as Hk
    by (simpl; lia).
  split; [exact Hk|]. split; [reflexivity|].
  destruct (ranked_threshold merge_argsort_impl (example_flags 3 (Some 0.5%Q))
              example_scores 0.5%Q Hk eq_refl)
    as (top_k & Hr & _ & Hall & _ & Hle & Hlen).
  exists top_k. split; [exact Hr|]. split; [exact Hall|].
  rewrite Hlen in Hle. exact Hle.
Defined.

Lemma ranked_unlimited_example :
  (FLAGS_top_k (example_flags 0 None) ≤ 0)%Z
  ∧ FLAGS_score_threshold (example_flags 0 None) = None
  ∧ ∃ top_k,
      ranked merge_argsort_impl (example_flags 0 None) example_scores
      = Ok top_k
      ∧ top_k ≡ₚ seq 0 (length example_scores)
      ∧ length top_k = length example_scores
      ∧ StronglySorted (descending example_scores) top_k.
Proof.
  assert (FLAGS_top_k (example_flags 0 None) ≤ 0)%Z as Hk by (simpl; lia).
  split; [exact Hk|]. split; [reflexivity|].
  exact (ranked_unlimited merge_argsort_impl (example_flags 0 None)
           example_scores Hk eq_refl).
Defined.

Lemma example_dict_lines :
  Forall (λ line, contains comma line = true)
         (readlines (example_GFile "dict.csv")).
Proof. repeat constructor. Defined.

Lemma LoadLabelMap_labelmap_example :
  Forall (λ line, contains comma line = true)
         (readlines (example_GFile "dict.csv"))
  ∧ ∃ labelmap label_dict,
      LoadLabelMap example_GFile "classes.txt" "dict.csv"
      = Ok (labelmap, label_dict)
      ∧ length labelmap = 2.
Proof.
  split; [exact example_dict_lines|].
  destruct (LoadLabelMap_labelmap example_GFile "classes.txt" "dict.csv"
              example_dict_lines)
    as (labelmap & label_dict & Hload & Hlen & _).
  exists labelmap, label_dict. split; [exact Hload|exact Hlen].
Defined.

Lemma trimmed_example_mid : trimmed (in_chars strip_chars) "/m/068hy".
Proof. split; intros c [= <-]; reflexivity. Defined.

Lemma trimmed_example_name : trimmed (in_chars strip_chars) "Pet".
Proof. split; intros c [= <-]; reflexivity. Defined.

Lemma LoadLabelMap_dict_entry_example :
  readlines (example_GFile "dict.csv")
  = [] ++ ("/m/068hy" +:+ String comma (text_line (quoted "Pet")))
       :: [text_line ("/m/01yrx," +:+ quoted "Cat")]
  ∧ contains comma "/m/068hy" = false
  ∧ ∃ labelmap label_dict,
      LoadLabelMap example_GFile "classes.txt" "dict.csv"
      = Ok (labelmap, label_dict)
      ∧ label_dict !! "/m/068hy" = Some "Pet".
Proof.
  split; [reflexivity|]. split; [reflexivity|].
  destruct (LoadLabelMap_dict_entry example_GFile "classes.txt" "dict.csv"
              [] "/m/068hy" (text_line (quoted "Pet"))
              [text_line ("/m/01yrx," +:+ quoted "Cat")])
    as (labelmap & label_dict & Hload & _ & _ & _ & _ & Hname).
  - reflexivity.
  - exact example_dict_lines.
  - reflexivity.
  - repeat constructor. vm_compute. discriminate.
  - exists labelmap, label_dict. split; [exact Hload|].
    apply (Hname "Pet" (String newline "")).
    + reflexivity.
    + right. reflexivity.
    + exact trimmed_example_mid.
    + exact trimmed_example_name.
Defined.

(** C4 (as stated, refuted): on a dictionary line [/m/068hy,<dq>Pet<dq>]
    with a tab before its newline the name keeps the closing double quote
    and the tab: a tab is whitespace, yet it is not stripped, and it
    shields the double quote before it. *)
Lemma LoadLabelMap_tab_counterexample :
  ∃ labelmap label_dict,
    LoadLabelMap example_GFile "classes.txt" "tab.csv"
    = Ok (labelmap, label_dict)
    ∧ readlines (example_GFile "tab.csv")
      = ["/m/068hy," +:+ quoted "Pet" +:+ String tab (String newline "")]
    ∧ label_dict !! "/m/068hy"
      = Some ("Pet" +:+ String dquote (String tab ""))
    ∧ label_dict !! "/m/068hy" ≠ Some "Pet"
    ∧ Ascii.is_space tab = true
    ∧ strip_word (String tab "Pet") = String tab "Pet".
Proof.
  exists ["/m/068hy"; "/m/01yrx"],
    (<["/m/068hy" := "Pet" +:+ String dquote (String tab "")]> ∅).
  split; [by vm_compute|]. split; [reflexivity|].
  rewrite lookup_insert_eq. split; [done|]. split; [|by split].
  intros Heq. discriminate Heq.
Qed.

(** Windows line ends do no harm: the reader drops the carriage return, and
    the dictionary line reads as if it ended in a newline alone. *)
Example LoadLabelMap_crlf_example :
  readlines (example_GFile "crlf.csv")
  = [text_line ("/m/068hy," +:+ quoted "Pet")]
  ∧ LoadLabelMap example_GFile "classes.txt" "crlf.csv"
    = Ok (["/m/068hy"; "/m/01yrx"], <["/m/068hy" := "Pet"]> ∅).
Proof. split; [reflexivity|by vm_compute]. Qed.

Lemma LoadLabelMap_no_comma_example :
  text_line "/m/01yrx" ∈ readlines (example_GFile "broken.csv")
  ∧ contains comma (text_line "/m/01yrx") = false
  ∧ LoadLabelMap example_GFile "classes.txt" "broken.csv" = Raise IndexError.
Proof.
  assert (text_line "/m/01yrx" ∈ readlines (example_GFile "broken.csv"))
    as Hin by (right; left).
  split; [exact Hin|]. split; [reflexivity|].
  exact (proj2 (LoadLabelMap_no_comma example_GFile "classes.txt"
                  "broken.csv" (text_line "/m/01yrx") Hin eq_refl)).
Defined.

Lemma example_twice_lines :
  Forall (λ line, contains comma line = true)
         (readlines (example_GFile "twice.csv")).
Proof. repeat constructor. Defined.

Lemma LoadLabelMap_duplicate_mid_example :
  readlines (example_GFile "twice.csv")
  = [] ++ text_line ("/m/068hy," +:+ quoted "Pet")
       :: [text_line ("/m/01yrx," +:+ quoted "Cat")]
       ++ text_line ("/m/068hy," +:+ quoted "Animal, domestic") :: []
  ∧ ∃ labelmap label_dict,
      LoadLabelMap example_GFile "classes.txt" "twice.csv"
      = Ok (labelmap, label_dict)
      ∧ label_dict !! "/m/068hy" = Some "Animal, domestic".
Proof.
  split; [reflexivity|].
  exact (LoadLabelMap_duplicate_mid example_GFile "classes.txt" "twice.csv"
           [] (text_line ("/m/068hy," +:+ quoted "Pet"))
           [text_line ("/m/01yrx," +:+ quoted "Cat")]
           (text_line ("/m/068hy," +:+ quoted "Animal, domestic")) []
           "/m/068hy" eq_refl example_twice_lines eq_refl eq_refl
           (Forall_nil_2 _)).
Defined.

Lemma example_resolvable fn top_k :
  fn ∈ split space (FLAGS_image (example_flags 1 None)) →
  ranked merge_argsort_impl (example_flags 1 None)
    (example_sess_run (example_GFile fn)) = Ok top_k →
  Forall (λ idx, ∃ mid, ["/m/068hy"; "/m/01yrx"] !! idx = Some mid
                        ∧ is_Some (example_label_dict !! mid)) top_k.
Proof.
  intros _ [= <-]. repeat constructor.
  exists "/m/068hy". split; [reflexivity|]. exists "Pet". reflexivity.
Defined.

Lemma main_prints_example :
  LoadLabelMap example_GFile (FLAGS_labelmap (example_flags 1 None))
    (FLAGS_dict (example_flags 1 None))
  = Ok (["/m/068hy"; "/m/01yrx"], example_label_dict)
  ∧ ∃ blocks,
      main example_GFile merge_argsort_impl example_sess_run
        (example_flags 1 None) []
      = ([] ++ concat blocks, Ok ())
      ∧ length blocks = 1.
Proof.
  assert (LoadLabelMap example_GFile (FLAGS_labelmap (example_flags 1 None))
            (FLAGS_dict (example_flags 1 None))
          = Ok (["/m/068hy"; "/m/01yrx"], example_label_dict)) as Hload
    by (vm_compute; reflexivity).
  split; [exact Hload|].
  destruct (main_prints example_GFile merge_argsort_impl example_sess_run
              (example_flags 1 None) ["/m/068hy"; "/m/01yrx"]
              example_label_dict [] Hload example_resolvable)
    as (blocks & Hrun & Hblocks & _).
  exists blocks. split; [exact Hrun|].
  apply Forall2_length in Hblocks. symmetry. exact Hblocks.
Defined.

Lemma main_lookup_error_example :
  LoadLabelMap example_GFile (FLAGS_labelmap example_short_flags)
    (FLAGS_dict example_short_flags)
  = Ok (["/m/068hy"], example_label_dict)
  ∧ "cat.jpg" ∈ split space (FLAGS_image example_short_flags)
  ∧ ranked merge_argsort_impl example_short_flags
      (example_sess_run (example_GFile "cat.jpg")) = Ok [0; 1]
  ∧ 1 ∈ [0; 1]
  ∧ ["/m/068hy"] !! 1 = (None : option string)
  ∧ (∀ o, print_result ["/m/068hy"] example_label_dict
            (example_sess_run (example_GFile "cat.jpg")) 1 o
          = (o, Raise IndexError))
  ∧ ∃ out' e,
      main example_GFile merge_argsort_impl example_sess_run
        example_short_flags [] = (out', Raise e).
Proof.
  assert (LoadLabelMap example_GFile (FLAGS_labelmap example_short_flags)
            (FLAGS_dict example_short_flags)
          = Ok (["/m/068hy"], example_label_dict)) as Hload
    by (vm_compute; reflexivity).
  assert ("cat.jpg" ∈ split space (FLAGS_image example_short_flags)) as Hfn
    by left.
  assert (1 ∈ [0; 1]) as Hidx by (right; left).
  split; [exact Hload|]. split; [exact Hfn|]. split; [reflexivity|].
  split; [exact Hidx|]. split; [reflexivity|].
  destruct (main_lookup_error example_GFile merge_argsort_impl
              example_sess_run example_short_flags ["/m/068hy"]
              example_label_dict "cat.jpg" [0; 1] 1 []
              Hload Hfn eq_refl Hidx (or_introl eq_refl))
    as (Hprint & _ & Hmain).
  split; [exact Hprint|exact Hmain].
Defined.

(** The scenario of C7 with the scores as the network returns them, the
    32-bit floats nearest to 0.96 and 0.95. *)
Example classify_image_pet_float32 GFile (np_argsort : argsort_impl) fn out :
  classify_image GFile np_argsort
    (λ _, [16106127 # 16777216; 15938355 # 16777216]%Q)
    (example_flags 1 None) ["/m/068hy"; "/m/01yrx"] example_label_dict fn out
  = (out ++ [format_header fn; "0000: /m/068hy - Pet (score = 0.96)"], Ok ()).
Proof.
  by rewrite (classify_image_top_1 GFile np_argsort _
                (16106127 # 16777216) (15938355 # 16777216) _ _ _ _ _
                "/m/068hy" "Pet").
Qed.

(** * Further properties of the ranking *)

Section RankingMore.

Context (np_argsort : argsort_impl).
Implicit Types (v : list Q) (FLAGS : flags) (top_k : list nat).

Lemma truncated_sublist FLAGS v :
  truncated np_argsort FLAGS v `sublist_of` reverse (np_argsort v).
Proof. unfold truncated. case_bool_decide; [apply sublist_take|done]. Qed.

(** X1: Whatever the flags, the ranking is computed without an exception (the
    score lookups of the threshold filter stay in range), and it lists
    distinct class indices of the score vector by descending score, in the
    order in which the reversed [argsort] has them. *)
Theorem ranked_invariant FLAGS v :
  ∃ top_k,
    ranked np_argsort FLAGS v = Ok top_k
    ∧ NoDup top_k
    ∧ Forall (λ i, i < length v) top_k
    ∧ StronglySorted (descending v) top_k
    ∧ top_k `sublist_of` reverse (np_argsort v)
    ∧ (length top_k ≤ length v)%nat.
Proof.
  assert (length (reverse (np_argsort v)) = length v) as Hlen.
  { by rewrite (reverse_argsort_perm np_argsort v), length_seq. }
  rewrite ranked_unfold.
  pose proof (truncated_NoDup np_argsort FLAGS v) as Hnd.
  pose proof (truncated_in_range np_argsort FLAGS v) as Hin.
  pose proof (truncated_sorted np_argsort FLAGS v) as Hs.
  pose proof (truncated_sublist FLAGS v) as Hsub.
  destruct (FLAGS_score_threshold FLAGS) as [t|]; eexists; (split; [done|]).
  - split; [by apply NoDup_filter|].
    split.
    { rewrite Forall_forall in Hin |- *.
      intros i [_ Hi]%list_elem_of_filter. by apply Hin. }
    split; [by apply StronglySorted_filter|].
    assert (filter (λ i, (t <= score_at v i)%Q) (truncated np_argsort FLAGS v)
            `sublist_of` reverse (np_argsort v)) as Hsub'.
    { etrans; [apply sublist_filter|done]. }
    split; [done|]. rewrite <-Hlen. by apply sublist_length.
  - do 4 (split; [done|]). rewrite <-Hlen. by apply sublist_length.
Qed.

Lemma truncated_best FLAGS v i j :
  i ∈ truncated np_argsort FLAGS v → j < length v →
  j ∉ truncated np_argsort FLAGS v → descending v i j.
Proof.
  intros Hi Hj Hnot. apply (reverse_argsort_in_range np_argsort) in Hj.
  unfold truncated in *. case_bool_decide; [|done].
  pose proof (reverse_argsort_sorted np_argsort v) as Hs.
  rewrite <-(take_drop (Z.to_nat (FLAGS_top_k FLAGS))
               (reverse (np_argsort v))) in Hs, Hj.
  apply elem_of_app in Hj as [Hj|Hj]; [done|].
  by eapply StronglySorted_app_1_elem_of.
Qed.

(** X2: What is left out is never better than what is kept: a class index that
    is not in the ranking scores no higher than any index in it, with or
    without truncation and threshold. *)
Theorem ranked_keeps_best FLAGS v top_k i j :
  ranked np_argsort FLAGS v = Ok top_k →
  i ∈ top_k → j < length v → j ∉ top_k →
  (score_at v j <= score_at v i)%Q.
Proof.
  rewrite ranked_unfold.
  destruct (FLAGS_score_threshold FLAGS) as [t|]; intros [= <-] Hi Hj Hnot.
  - apply list_elem_of_filter in Hi as [Hti Hi].
    destruct (decide (j ∈ truncated np_argsort FLAGS v)) as [Hin|Hout].
    + destruct (Qlt_le_dec (score_at v j) t) as [Hlt|Hle].
      * apply Qlt_le_weak. by eapply Qlt_le_trans.
      * exfalso. apply Hnot. by apply list_elem_of_filter.
    + by apply (truncated_best FLAGS).
  - by apply (truncated_best FLAGS).
Qed.

(** X3: Without a limit ([top_k] zero or negative) and with a threshold, the
    ranking holds exactly the class indices whose score reaches the
    threshold. *)
Theorem ranked_unlimited_threshold FLAGS v t top_k i :
  (FLAGS_top_k FLAGS ≤ 0)%Z →
  FLAGS_score_threshold FLAGS = Some t →
  ranked np_argsort FLAGS v = Ok top_k →
  i ∈ top_k ↔ i < length v ∧ (t <= score_at v i)%Q.
Proof.
  intros Hk Ht. rewrite ranked_unfold, Ht. intros [= <-].
  unfold truncated. rewrite bool_decide_eq_false_2 by lia.
  rewrite list_elem_of_filter, reverse_argsort_in_range. tauto.
Qed.

End RankingMore.

Section RankingCount.

Context (np_argsort : argsort_impl).
Implicit Types (v : list Q) (FLAGS : flags) (top_k : list nat).

Lemma filter_none {A} (P : A → Prop) `{!∀ x, Decision (P x)} (l : list A) :
  Forall (λ x, ¬ P x) l → filter P l = [].
Proof.
  induction 1 as [|x l Hx _ IH]; [done|].
  by rewrite filter_cons, decide_False.
Qed.

(** On a list sorted by descending score the entries that reach the
    threshold come first, so cutting and filtering commute. *)
Lemma filter_take_descending v (t : Q) n l :
  StronglySorted (descending v) l →
  filter (λ i, (t <= score_at v i)%Q) (take n l)
  = take n (filter (λ i, (t <= score_at v i)%Q) l).
Proof.
  intros Hl. revert n. induction Hl as [|x l _ IH Hx]; intros n.
  { by rewrite filter_nil, !take_nil. }
  destruct n as [|n]; [by rewrite !take_0|].
  rewrite firstn_cons, !filter_cons. case_decide as Hpx.
  - by rewrite firstn_cons, IH.
  -
    assert (Forall (λ i, ¬ (t <= score_at v i)%Q) l) as Hnone.
    { eapply Forall_impl; [exact Hx|]. intros y Hxy Hty. apply Hpx.
      by eapply Qle_trans. }
    rewrite (filter_none _ l) by done.
    rewrite filter_none; [done|].
    rewrite Forall_forall in Hnone |- *. intros y Hy.
    apply Hnone. by eapply subseteq_take.
Qed.

Lemma filter_seq_scores (t : Q) (pre v : list Q) :
  length (filter (λ i, (t <= score_at (pre ++ v) i)%Q)
            (seq (length pre) (length v)))
  = length (filter (λ s, (t <= s)%Q) v).
Proof.
  revert pre. induction v as [|x v IH]; intros pre; [done|].
  simpl seq. rewrite !filter_cons.
  assert (score_at (pre ++ x :: v) (length pre) = x) as Hx.
  { unfold score_at. by rewrite list_lookup_middle. }
  specialize (IH (pre ++ [x])).
  rewrite <-app_assoc, length_app in IH. simpl in IH.
  rewrite Nat.add_1_r in IH. rewrite Hx.
  case_decide; simpl; by rewrite IH.
Qed.

Lemma filter_indices_length (t : Q) v l :
  l ≡ₚ seq 0 (length v) →
  length (filter (λ i, (t <= score_at v i)%Q) l)
  = length (filter (λ s, (t <= s)%Q) v).
Proof. intros ->. apply (filter_seq_scores t [] v). Qed.

(** X4: With a positive [top_k] and a threshold the order of the two steps
    does not matter: the ranking is the first [top_k] of the entries that
    reach the threshold, so it has min(top_k, M) entries, where M is the
    number of scores that reach the threshold. *)
Theorem ranked_threshold_count FLAGS v t :
  (0 < FLAGS_top_k FLAGS)%Z →
  FLAGS_score_threshold FLAGS = Some t →
  ∃ top_k,
    ranked np_argsort FLAGS v = Ok top_k
    ∧ top_k = take (Z.to_nat (FLAGS_top_k FLAGS))
                (filter (λ i, (t <= score_at v i)%Q)
                        (reverse (np_argsort v)))
    ∧ length top_k
      = Z.to_nat (FLAGS_top_k FLAGS)
        `min` length (filter (λ s, (t <= s)%Q) v).
Proof.
  intros Hk Ht. eexists. rewrite ranked_unfold, Ht.
  split; [done|]. unfold truncated. rewrite bool_decide_eq_true_2 by done.
  rewrite filter_take_descending by apply reverse_argsort_sorted.
  split; [done|]. rewrite length_take.
  by rewrite (filter_indices_length t v) by apply reverse_argsort_perm.
Qed.

End RankingCount.

(** ** Two implementations of [argsort] *)

Lemma merge_argsort_rev_perm v : merge_argsort_rev v ≡ₚ seq 0 (length v).
Proof.
  unfold merge_argsort_rev.
  by rewrite merge_sort_Permutation, reverse_Permutation.
Qed.

Lemma merge_argsort_rev_sorted v : Sorted (ascending v) (merge_argsort_rev v).
Proof.
  apply Sorted_weaken with (R1 := score_leb v).
  - intros i j. unfold score_leb, ascending. by rewrite Qle_bool_iff.
  - apply Sorted_merge_sort, _.
Qed.

Definition merge_argsort_rev_impl : argsort_impl :=
  {| argsort := merge_argsort_rev;
     argsort_perm := merge_argsort_rev_perm;
     argsort_sorted := merge_argsort_rev_sorted |}.

Lemma ascending_transitive v : Transitive (ascending v).
Proof. intros i j k Hij Hjk. unfold ascending in *. by eapply Qle_trans. Qed.

(** X5: When no two scores are equal the contract of [argsort] leaves no
    freedom, and the ranking is the same for every implementation. *)
Theorem ranked_tie_free (np1 np2 : argsort_impl) (FLAGS : flags) (v : list Q) :
  (∀ i j, i < length v → j < length v →
          (score_at v i == score_at v j)%Q → i = j) →
  ranked np1 FLAGS v = ranked np2 FLAGS v.
Proof.
  intros Hdistinct.
  assert (np1 v = np2 v) as Heq.
  { apply (StronglySorted_unique_strong (ascending v)).
    - intros i j Hi Hj Hij Hji.
      rewrite (argsort_perm np1 v), elem_of_seq in Hi.
      rewrite (argsort_perm np2 v), elem_of_seq in Hj.
      apply Hdistinct; [lia..|]. by apply Qle_antisym.
    - apply (@Sorted_StronglySorted _ _ (ascending_transitive v)),
        argsort_sorted.
    - apply (@Sorted_StronglySorted _ _ (ascending_transitive v)),
        argsort_sorted.
    - by rewrite (argsort_perm np1 v), (argsort_perm np2 v). }
  unfold ranked, truncated. by rewrite Heq.
Qed.

(** * Further properties of printing *)

#[global] Instance resolves_dec labelmap label_dict idx :
  Decision (resolves labelmap label_dict idx).
Proof.
  unfold resolves. destruct (labelmap !! idx) as [mid|] eqn:Hmid.
  - destruct (label_dict !! mid) as [name|] eqn:Hname.
    + left. exists mid. split; [done|]. by rewrite Hname.
    + right. intros (mid' & [= <-] & Hsome). rewrite Hname in Hsome.
      by destruct Hsome.
  - right. by intros (mid' & [=] & _).
Defined.

Lemma first_failure {A} (P : A → Prop) `{!∀ x, Decision (P x)} (l : list A) :
  Forall P l
  ∨ ∃ good x rest, l = good ++ x :: rest ∧ Forall P good ∧ ¬ P x.
Proof.
  induction l as [|a l IH]; [by left|].
  destruct (decide (P a)) as [Ha|Ha].
  - destruct IH as [Hl|(good & x & rest & -> & Hgood & Hx)].
    + left. by constructor.
    + right. exists (a :: good), x, rest. split; [done|].
      split; [by constructor|done].
  - right. exists [], a, l. split; [done|]. split; [constructor|done].
Qed.

Lemma for_each_app {A} (xs ys : list A) (body : A → io unit) out :
  for_each (xs ++ ys) body out
  = match for_each xs body out with
    | (out', Ok _) => for_each ys body out'
    | (out', Raise e) => (out', Raise e)
    end.
Proof.
  revert out. induction xs as [|x xs IH]; intros out; [done|].
  simpl. unfold io_bind. destruct (body x out) as [out1 [[]|e]]; [|done].
  apply IH.
Qed.

Section PrintingMore.

Context (GFile : string → string) (np_argsort : argsort_impl).
Context (sess_run : string → list Q).
Implicit Types (FLAGS : flags) (labelmap : list string).
Implicit Types (label_dict : gmap string string) (v : list Q).
Implicit Types (top_k : list nat) (out lines : list string).

Lemma print_result_unresolved labelmap label_dict v idx out :
  ¬ resolves labelmap label_dict idx →
  print_result labelmap label_dict v idx out
  = (out, Raise (lookup_exn labelmap idx)).
Proof.
  intros Hno. unfold lookup_exn.
  destruct (labelmap !! idx) as [mid|] eqn:Hmid.
  - apply print_result_KeyError with (mid := mid); [done|].
    destruct (label_dict !! mid) as [name|] eqn:Hname; [|done].
    destruct Hno. exists mid. split; [done|]. by rewrite Hname.
  - by apply print_result_IndexError.
Qed.

Lemma for_each_print_result_fail labelmap label_dict v good idx rest lines out :
  Forall2 (result_line labelmap label_dict v) good lines →
  ¬ resolves labelmap label_dict idx →
  for_each (good ++ idx :: rest) (print_result labelmap label_dict v) out
  = (out ++ lines, Raise (lookup_exn labelmap idx)).
Proof.
  intros Hgood Hno.
  rewrite for_each_app, (for_each_print_result_ok _ _ _ _ lines) by done.
  simpl. unfold io_bind. by rewrite print_result_unresolved.
Qed.

Lemma classify_image_fail FLAGS labelmap label_dict fn good idx rest out :
  ranked np_argsort FLAGS (sess_run (GFile fn)) = Ok (good ++ idx :: rest) →
  Forall (resolves labelmap label_dict) good →
  ¬ resolves labelmap label_dict idx →
  ∃ lines,
    Forall2 (result_line labelmap label_dict (sess_run (GFile fn))) good lines
    ∧ classify_image GFile np_argsort sess_run FLAGS labelmap label_dict fn out
      = (out ++ format_header fn :: lines, Raise (lookup_exn labelmap idx)).
Proof.
  intros Hr Hgood Hno.
  pose proof (ranked_in_range np_argsort _ _ _ Hr) as Hin.
  apply Forall_app in Hin as [Hin _].
  destruct (resolvable_result_lines labelmap label_dict
              (sess_run (GFile fn)) good Hin Hgood) as [lines Hl].
  exists lines. split; [done|].
  unfold classify_image, io_bind, lift at 1. rewrite Hr. unfold print.
  rewrite (for_each_print_result_fail _ _ _ _ _ _ lines) by done.
  by rewrite <-app_assoc.
Qed.

(** X7: An image is printed without an exception exactly when every ranked
    index resolves: the label lookups are the only thing that can fail. *)
Theorem classify_image_ok_iff FLAGS labelmap label_dict fn top_k out :
  ranked np_argsort FLAGS (sess_run (GFile fn)) = Ok top_k →
  (classify_image GFile np_argsort sess_run FLAGS labelmap label_dict fn out).2
  = Ok ()
  ↔ Forall (resolves labelmap label_dict) top_k.
Proof.
  intros Hr. split.
  - intros Hok.
    destruct (first_failure (resolves labelmap label_dict) top_k)
      as [Hall|(good & idx & rest & -> & Hgood & Hno)]; [done|].
    destruct (classify_image_fail FLAGS labelmap label_dict fn good idx rest
                out Hr Hgood Hno) as (lines & _ & Hrun).
    by rewrite Hrun in Hok.
  - intros Hall.
    destruct (resolvable_result_lines labelmap label_dict
                (sess_run (GFile fn)) top_k) as [lines Hl];
      [by eapply ranked_in_range|done|].
    by rewrite (classify_image_ok GFile np_argsort sess_run FLAGS labelmap
                  label_dict fn top_k lines out Hr Hl).
Qed.

(** X8: A failing image ends the run: the blocks of the images before it are
    in the output, then its own header and the lines printed before the
    failing index; the images after it are not touched. *)
Theorem main_stops_at_failure
    FLAGS labelmap label_dict pre fn post good idx rest out :
  LoadLabelMap GFile (FLAGS_labelmap FLAGS) (FLAGS_dict FLAGS)
  = Ok (labelmap, label_dict) →
  split space (FLAGS_image FLAGS) = pre ++ fn :: post →
  (∀ fn' top_k, fn' ∈ pre →
     ranked np_argsort FLAGS (sess_run (GFile fn')) = Ok top_k →
     Forall (resolves labelmap label_dict) top_k) →
  ranked np_argsort FLAGS (sess_run (GFile fn)) = Ok (good ++ idx :: rest) →
  Forall (resolves labelmap label_dict) good →
  ¬ resolves labelmap label_dict idx →
  ∃ blocks lines,
    Forall2 (image_block GFile np_argsort sess_run FLAGS labelmap label_dict)
            pre blocks
    ∧ Forall2 (result_line labelmap label_dict (sess_run (GFile fn)))
              good lines
    ∧ main GFile np_argsort sess_run FLAGS out
      = (out ++ concat blocks ++ format_header fn :: lines,
         Raise (lookup_exn labelmap idx)).
Proof.
  intros Hload Himages Hpre Hr Hgood Hno.
  destruct (for_each_classify_image GFile np_argsort sess_run FLAGS labelmap
              label_dict pre out Hpre) as (blocks & Hblocks & Hrun).
  destruct (classify_image_fail FLAGS labelmap label_dict fn good idx rest
              (out ++ concat blocks) Hr Hgood Hno) as (lines & Hlines & Hfail).
  exists blocks, lines. split; [done|]. split; [done|].
  unfold main, io_bind, lift. rewrite Hload, Himages. simpl.
  rewrite for_each_app, Hrun. simpl. unfold io_bind.
  rewrite Hfail. by rewrite <-app_assoc.
Qed.

(** X9: A dictionary line without a comma ends the run before anything is
    printed and before any image is looked at. *)
Theorem main_bad_dictionary FLAGS line out :
  line ∈ readlines (GFile (FLAGS_dict FLAGS)) →
  contains comma line = false →
  main GFile np_argsort sess_run FLAGS out = (out, Raise IndexError).
Proof.
  intros Hin Hline. unfold main, io_bind, lift, LoadLabelMap.
  rewrite LoadLabelMap_loop_raise; [done|].
  apply Exists_exists. eauto.
Qed.

(** X6: When no score reaches the threshold only the header is printed, and
    no label is looked up: the image cannot fail, whatever the tables. *)
Theorem classify_image_below_threshold FLAGS labelmap label_dict fn t out :
  FLAGS_score_threshold FLAGS = Some t →
  Forall (λ s, (s < t)%Q) (sess_run (GFile fn)) →
  classify_image GFile np_argsort sess_run FLAGS labelmap label_dict fn out
  = (out ++ [format_header fn], Ok ()).
Proof.
  intros Ht Hlow. apply classify_image_ok with (top_k := []); [|constructor].
  rewrite ranked_unfold, Ht. f_equal. apply filter_none.
  pose proof (truncated_in_range np_argsort FLAGS (sess_run (GFile fn))) as Hin.
  eapply Forall_impl; [exact Hin|]. intros i Hi Hti. simpl in Hi.
  destruct (lookup_lt_is_Some_2 _ i Hi) as [s Hs].
  rewrite Forall_forall in Hlow.
  assert (s < t)%Q as Hst by (apply Hlow; by eapply list_elem_of_lookup_2).
  unfold score_at in Hti. rewrite Hs in Hti. simpl in Hti.
  by apply Qle_not_lt in Hti.
Qed.

End PrintingMore.

(** * Further properties of the label tables *)

Lemma last_char_snoc s c : last_char (s +:+ String c "") = Some c.
Proof.
  induction s as [|a s IH]; [done|]. rewrite ?app_String.
  change (last_char (String a (s +:+ String c "")))
    with (match s +:+ String c "" with
          | "" => Some a
          | _ => last_char (s +:+ String c "")
          end).
  rewrite IH. by destruct s.
Qed.

Lemma app_snoc_inv s1 s2 body c :
  s1 +:+ s2 = body +:+ String c "" →
  (s2 = "" ∧ s1 = body +:+ String c "")
  ∨ ∃ s2', s2 = s2' +:+ String c "" ∧ s1 +:+ s2' = body.
Proof.
  revert body. induction s1 as [|a s1 IH]; intros body Heq.
  { right. by exists body. }
  destruct body as [|b body].
  - injection Heq as -> Heq. destruct s1; [|done].
    change (s2 = "") in Heq. subst s2. by left.
  - injection Heq as -> Heq. destruct (IH _ Heq) as [[-> ->]|(s2' & -> & <-)].
    + by left.
    + right. by exists s2'.
Qed.

(** A part of a line that does not end in a newline holds no newline. *)
Lemma part_no_newline line a x b :
  (∃ body, contains newline body = false
           ∧ (line = body +:+ String newline "" ∨ (line = body ∧ body ≠ ""))) →
  line = a +:+ (x +:+ b) →
  (∀ c, last_char x = Some c → c ≠ newline) →
  contains newline x = false.
Proof.
  intros (body & Hbody & [->|[-> _]]) Heq Hlast.
  - rewrite <-app_assoc_string in Heq. symmetry in Heq.
    apply app_snoc_inv in Heq as [[-> Heq]|(b' & -> & Heq)].
    + apply app_snoc_inv in Heq as [[-> _]|(x' & -> & _)]; [done|].
      by destruct (Hlast newline (last_char_snoc x' newline)).
    + rewrite <-Heq, !contains_app in Hbody.
      by apply orb_false_iff in Hbody as [[_ ?]%orb_false_iff _].
  - rewrite Heq, !contains_app in Hbody.
    by apply orb_false_iff in Hbody as [_ [? _]%orb_false_iff].
Qed.

Lemma drop_cr_no_cr s : contains carriage_return (drop_cr s) = false.
Proof.
  induction s as [|c s IH]; [done|]. simpl. case_decide; [done|].
  simpl. by rewrite decide_False.
Qed.

Lemma count_char_drop_cr s :
  count_char newline (drop_cr s) = count_char newline s.
Proof.
  induction s as [|c s IH]; [done|]. simpl. case_decide as Hc.
  - subst c. by rewrite decide_False.
  - simpl. by rewrite IH.
Qed.

Lemma readlines_drop_cr s : readlines (drop_cr s) = readlines s.
Proof.
  induction s as [|c s IH]; [done|]. simpl. case_decide as Hc; [done|].
  simpl. rewrite decide_False by done. by rewrite IH.
Qed.

Lemma readlines_no_cr content :
  Forall (λ line, contains carriage_return line = false) (readlines content).
Proof.
  pose proof (drop_cr_no_cr content) as Hno.
  rewrite <-readlines_concat in Hno. revert Hno.
  generalize (readlines content). intros lines.
  induction lines as [|l lines IH]; [constructor|].
  simpl. rewrite contains_app. intros [Hl Hrest]%orb_false_iff.
  constructor; auto.
Qed.

Lemma length_readlines_plain s :
  contains carriage_return s = false →
  length (readlines s)
  = count_char newline s
    + match last_char s with
      | Some c => if decide (c = newline) then 0 else 1
      | None => 0
      end.
Proof.
  induction s as [|c s IH]; [done|].
  change (last_char (String c s))
    with (match s with "" => Some c | _ => last_char s end).
  simpl contains. case_decide as Hcr; [done|]. intros Hs.
  specialize (IH Hs).
  simpl readlines. simpl count_char. rewrite decide_False by done.
  case_decide as Hc.
  - simpl length. rewrite IH. destruct s; [|done].
    simpl. by rewrite decide_True.
  - destruct s as [|a s]; [simpl; by rewrite decide_False|].
    destruct (readlines (String a s)) as [|l ls] eqn:Hr.
    + exfalso. clear IH. simpl in Hr, Hs.
      case_decide; [done|]. case_decide; [done|].
      by destruct (readlines s).
    + simpl length in *. by rewrite IH.
Qed.

Lemma length_readlines content :
  length (readlines content)
  = count_char newline content
    + match last_char (drop_cr content) with
      | Some c => if decide (c = newline) then 0 else 1
      | None => 0
      end.
Proof.
  rewrite <-readlines_drop_cr, <-count_char_drop_cr.
  apply length_readlines_plain, drop_cr_no_cr.
Qed.

Section LoadingMore.

Context (GFile : string → string).
Implicit Types (line : string) (lines : list string).
Implicit Types (label_dict : gmap string string).

Lemma LoadLabelMap_inv labelmap_path dict_path labelmap label_dict :
  LoadLabelMap GFile labelmap_path dict_path = Ok (labelmap, label_dict) →
  Forall (λ line, contains comma line = true) (readlines (GFile dict_path))
  ∧ labelmap = rstrip <$> readlines (GFile labelmap_path)
  ∧ label_dict = foldl bind_line ∅ (readlines (GFile dict_path)).
Proof.
  intros Hload.
  destruct (first_failure (λ line, contains comma line = true)
              (readlines (GFile dict_path)))
    as [Hall|(good & line & rest & Heq & _ & Hline)].
  - rewrite (LoadLabelMap_ok GFile) in Hload by done.
    by injection Hload as <- <-.
  - unfold LoadLabelMap in Hload.
    rewrite LoadLabelMap_loop_raise in Hload; [done|].
    rewrite Heq. apply Exists_app. right. left.
    by destruct (contains comma line).
Qed.

(** X11: [LoadLabelMap] returns its tables exactly when every line of the
    dictionary file has a comma; otherwise it raises [IndexError].  A blank
    line in the dictionary file is such a line. *)
Theorem LoadLabelMap_returns_iff labelmap_path dict_path :
  ((∃ tables, LoadLabelMap GFile labelmap_path dict_path = Ok tables)
   ↔ Forall (λ line, contains comma line = true)
            (readlines (GFile dict_path)))
  ∧ ((∀ tables, LoadLabelMap GFile labelmap_path dict_path ≠ Ok tables)
     → LoadLabelMap GFile labelmap_path dict_path = Raise IndexError)
  ∧ (String newline "" ∈ readlines (GFile dict_path)
     → LoadLabelMap GFile labelmap_path dict_path = Raise IndexError).
Proof.
  split; [split|split].
  - intros [[labelmap label_dict] Hload].
    by apply LoadLabelMap_inv in Hload as [? _].
  - intros Hall. eexists. by apply LoadLabelMap_ok.
  - intros Hno.
    destruct (LoadLabelMap GFile labelmap_path dict_path) as [tables|[]] eqn:H;
      [by destruct (Hno tables)|done|].
    unfold LoadLabelMap in H.
    destruct (LoadLabelMap_loop (readlines (GFile dict_path)) ∅) eqn:Hloop;
      [done|].
    destruct (first_failure (λ line, contains comma line = true)
                (readlines (GFile dict_path)))
      as [Hall|(good & line & rest & Heq & _ & Hline)].
    + by rewrite LoadLabelMap_loop_ok in Hloop.
    + rewrite LoadLabelMap_loop_raise in Hloop; [by simplify_eq|].
      rewrite Heq. apply Exists_app. right. left.
      by destruct (contains comma line).
  - intros Hin. unfold LoadLabelMap.
    rewrite LoadLabelMap_loop_raise; [done|].
    apply Exists_exists. by exists (String newline "").
Qed.

Lemma foldl_bind_line_lookup lines label_dict k value :
  foldl bind_line label_dict lines !! k = Some value →
  label_dict !! k = Some value
  ∨ ∃ line, line ∈ lines ∧ line_key line = k ∧ line_value line = value.
Proof.
  revert label_dict. induction lines as [|line lines IH]; intros label_dict.
  { by left. }
  simpl. intros [Hl|(line' & Hin & Hk & Hv)]%IH.
  - unfold bind_line in Hl. apply lookup_insert_Some in Hl as [[<- <-]|[_ Hl]].
    + right. exists line. split; [left|done].
    + by left.
  - right. exists line'. split; [by right|done].
Qed.

Lemma foldl_bind_line_is_Some lines label_dict line :
  line ∈ lines → is_Some (foldl bind_line label_dict lines !! line_key line).
Proof.
  revert label_dict line.
  induction lines as [|l lines IH]; intros label_dict line Hin.
  { by apply elem_of_nil in Hin. }
  apply elem_of_cons in Hin as [->|Hin]; [|by apply IH].
  simpl.
  destruct (decide (Exists (λ l', line_key l' = line_key l) lines))
    as [Hex|Hno].
  - apply Exists_exists in Hex as (l' & Hl' & Heq). rewrite <-Heq.
    by apply IH.
  - apply not_Exists_Forall in Hno; [|intros ?; apply _].
    rewrite foldl_bind_line_other by done.
    unfold bind_line. rewrite lookup_insert_eq. by eexists.
Qed.

(** X12: The keys of the returned dictionary are exactly the stripped first
    fields of the lines of the dictionary file: a mid has a display name
    if and only if some line has it as key (any other lookup is the
    [KeyError] of the printing loop), and there are at most as many keys
    as lines. *)
Theorem LoadLabelMap_dict_keys labelmap_path dict_path labelmap label_dict :
  LoadLabelMap GFile labelmap_path dict_path = Ok (labelmap, label_dict) →
  (∀ mid, is_Some (label_dict !! mid)
          ↔ ∃ line, line ∈ readlines (GFile dict_path) ∧ line_key line = mid)
  ∧ (∀ mid, dict_getitem label_dict mid = Raise KeyError
            ↔ ∀ line, line ∈ readlines (GFile dict_path) → line_key line ≠ mid)
  ∧ (size label_dict ≤ length (readlines (GFile dict_path)))%nat.
Proof.
  intros (_ & _ & ->)%LoadLabelMap_inv.
  assert (∀ mid, is_Some (foldl bind_line ∅ (readlines (GFile dict_path))
                          !! mid)
                 ↔ ∃ line, line ∈ readlines (GFile dict_path)
                           ∧ line_key line = mid) as Hkeys.
  { intros mid. split.
    - intros [value [Hl|(line & Hin & Hk & _)]%foldl_bind_line_lookup];
        [by rewrite lookup_empty in Hl|eauto].
    - intros (line & Hin & <-). by apply foldl_bind_line_is_Some. }
  split; [done|]. split.
  - intros mid. unfold dict_getitem. split.
    + intros Hraise line Hin Hk.
      destruct (proj2 (Hkeys mid)) as [value Hv]; [eauto|].
      by rewrite Hv in Hraise.
    + intros Hno.
      destruct (foldl bind_line ∅ (readlines (GFile dict_path)) !! mid)
        as [value|] eqn:Hv; [|done].
      destruct (proj1 (Hkeys mid)) as (line & Hin & Hk); [by eexists|].
      by destruct (Hno line Hin).
  - generalize (readlines (GFile dict_path)). intros lines.
    induction lines as [|line lines IH] using rev_ind.
    { simpl. by rewrite map_size_empty. }
    rewrite foldl_app, length_app. simpl. unfold bind_line at 1.
    destruct (foldl bind_line ∅ lines !! line_key line) eqn:Hl.
    + rewrite map_size_insert_Some by done. lia.
    + rewrite map_size_insert_None by done. lia.
Qed.

End LoadingMore.

Section TableEntries.

Context (GFile : string → string).
Implicit Types (line mid : string) (label_dict : gmap string string).

Lemma trimmed_not_newline x c :
  trimmed (in_chars strip_chars) x → last_char x = Some c → c ≠ newline.
Proof. intros [_ Hlast] Hc ->. by apply Hlast in Hc. Qed.

Lemma line_fields_clean line :
  (∃ body, contains newline body = false
           ∧ (line = body +:+ String newline "" ∨ (line = body ∧ body ≠ ""))) →
  contains comma line = true →
  trimmed (in_chars strip_chars) (line_key line)
  ∧ contains comma (line_key line) = false
  ∧ contains newline (line_key line) = false
  ∧ trimmed (in_chars strip_chars) (line_value line)
  ∧ contains newline (line_value line) = false.
Proof.
  intros Hform (f & g & -> & Hf & _)%split1_sep.
  destruct (line_fields f g Hf) as [-> ->].
  destruct (strip_by_spec (in_chars strip_chars) f) as (a & b & Hfeq & _ & _ & Hkey).
  destruct (strip_by_spec (in_chars strip_chars) g) as (a' & b' & Hgeq & _ & _ & Hval).
  fold (strip_word f) in *. fold (strip_word g) in *.
  split; [done|]. split.
  { rewrite Hfeq, !contains_app in Hf.
    by apply orb_false_iff in Hf as [_ [? _]%orb_false_iff]. }
  split.
  { apply (part_no_newline _ a (strip_word f) (b +:+ String comma g) Hform).
    - rewrite Hfeq at 1. by rewrite !app_assoc_string.
    - intros c. by apply trimmed_not_newline. }
  split; [done|].
  apply (part_no_newline _ (f +:+ String comma a') (strip_word g) b' Hform).
  - rewrite Hgeq at 1. by rewrite !app_assoc_string.
  - intros c. by apply trimmed_not_newline.
Qed.

(** X13: Every key and every display name of the returned dictionary is free
    of newlines and neither starts nor ends with a space, a double quote
    or a newline; a key holds no comma. *)
Theorem LoadLabelMap_dict_clean
    labelmap_path dict_path labelmap label_dict mid display_name :
  LoadLabelMap GFile labelmap_path dict_path = Ok (labelmap, label_dict) →
  label_dict !! mid = Some display_name →
  trimmed (in_chars strip_chars) mid
  ∧ contains comma mid = false
  ∧ contains newline mid = false
  ∧ trimmed (in_chars strip_chars) display_name
  ∧ contains newline display_name = false.
Proof.
  intros (Hcomma & _ & ->)%LoadLabelMap_inv Hl.
  apply foldl_bind_line_lookup in Hl as [Hl|(line & Hin & <- & <-)];
    [by rewrite lookup_empty in Hl|].
  pose proof (readlines_lines (GFile dict_path)) as Hforms.
  rewrite Forall_forall in Hcomma, Hforms.
  apply line_fields_clean; auto.
Qed.

(** X14: A mid of the label map that starts or ends with a space, a double
    quote or a newline is never a key of the dictionary: printing its
    class raises [KeyError], whatever the dictionary file holds. *)
Theorem LoadLabelMap_untrimmed_mid
    labelmap_path dict_path labelmap label_dict idx mid v out :
  LoadLabelMap GFile labelmap_path dict_path = Ok (labelmap, label_dict) →
  labelmap !! idx = Some mid →
  ¬ trimmed (in_chars strip_chars) mid →
  print_result labelmap label_dict v idx out = (out, Raise KeyError).
Proof.
  intros (Hcomma & _ & ->)%LoadLabelMap_inv Hmid Hno.
  apply print_result_KeyError with (mid := mid); [done|].
  destruct (foldl bind_line ∅ (readlines (GFile dict_path)) !! mid)
    as [name|] eqn:Hl; [|done].
  apply foldl_bind_line_lookup in Hl as [Hl|(line & Hin & <- & _)];
    [by rewrite lookup_empty in Hl|].
  destruct Hno.
  pose proof (readlines_lines (GFile dict_path)) as Hforms.
  rewrite Forall_forall in Hcomma, Hforms.
  by apply line_fields_clean; auto.
Qed.

(** X15: The label map has one entry per newline of its file, and one more
    when the file, its carriage returns set aside, does not end with a
    newline; no entry holds a newline or a carriage return or ends with
    whitespace.  A file that is empty, or holds carriage returns only,
    gives an empty label map. *)
Theorem LoadLabelMap_labelmap_entries
    labelmap_path dict_path labelmap label_dict :
  LoadLabelMap GFile labelmap_path dict_path = Ok (labelmap, label_dict) →
  length labelmap
  = count_char newline (GFile labelmap_path)
    + match last_char (drop_cr (GFile labelmap_path)) with
      | Some c => if decide (c = newline) then 0 else 1
      | None => 0
      end
  ∧ (drop_cr (GFile labelmap_path) = "" → labelmap = [])
  ∧ ∀ mid, mid ∈ labelmap →
      contains newline mid = false
      ∧ contains carriage_return mid = false
      ∧ ∀ c, last_char mid = Some c → Ascii.is_space c = false.
Proof.
  intros (_ & -> & _)%LoadLabelMap_inv.
  split; [by rewrite length_fmap, length_readlines|].
  split.
  { intros Hempty. by rewrite <-readlines_drop_cr, Hempty. }
  intros mid (line & -> & Hin)%list_elem_of_fmap.
  destruct (rstrip_by_spec Ascii.is_space line) as (ws & Hline & _ & Hlast).
  pose proof (readlines_lines (GFile labelmap_path)) as Hforms.
  pose proof (readlines_no_cr (GFile labelmap_path)) as Hcr.
  rewrite Forall_forall in Hforms, Hcr.
  split; [|split; [|done]].
  - apply (part_no_newline line "" (rstrip line) ws (Hforms line Hin)).
    + by rewrite app_empty_l.
    + intros c Hc ->. by apply Hlast in Hc.
  - specialize (Hcr line Hin). rewrite Hline, contains_app in Hcr.
    by apply orb_false_iff in Hcr as [? _].
Qed.

End TableEntries.

(** * Further properties of the image list and of the formats *)

Lemma split_nonempty sep s : split sep s ≠ [].
Proof.
  destruct s as [|c s]; [done|]. simpl. case_decide; [done|].
  by destruct (split sep s).
Qed.

(** X16: [FLAGS.image.split(' ')]: joining the pieces with the separator gives
    the flag back, no piece holds the separator, and there is one piece
    more than there are separators; so even an empty flag names one
    (empty) file, and two adjacent spaces name an empty file between. *)
Theorem split_join sep s :
  join sep (split sep s) = s
  ∧ length (split sep s) = S (count_char sep s)
  ∧ Forall (λ w, contains sep w = false) (split sep s).
Proof.
  induction s as [|c s (Hjoin & Hlen & Hfree)].
  { split; [done|]. split; [done|]. by repeat constructor. }
  pose proof (split_nonempty sep s) as Hne.
  simpl split. simpl count_char. case_decide as Hc.
  - subst c. split; [|split].
    + destruct (split sep s) as [|w ws]; [done|].
      change (join sep ("" :: w :: ws))
        with ("" +:+ String sep (join sep (w :: ws))).
      by rewrite Hjoin.
    + simpl. by rewrite Hlen.
    + by constructor.
  - destruct (split sep s) as [|w ws]; [done|]. split; [|split].
    + rewrite <-Hjoin. by destruct ws.
    + exact Hlen.
    + apply Forall_cons in Hfree as [Hw Hws]. constructor; [|done].
      simpl. by rewrite decide_False.
Qed.

Lemma of_lu_bound d : Unsigned.of_lu d < 10 ^ Unsigned.usize d.
Proof.
  induction d; [simpl; lia|..];
    simpl Unsigned.usize; rewrite Nat.pow_succ_r'; simpl Unsigned.of_lu; lia.
Qed.

(** A number is below the power of ten given by its number of digits. *)
Lemma decimal_value_bound n : n < 10 ^ String.length (decimal n).
Proof.
  rewrite <-(Unsigned.of_to n) at 1. unfold decimal.
  rewrite Unsigned.of_uint_alt.
  pose proof (of_lu_bound (Decimal.rev (Nat.to_uint n))) as Hb.
  unfold Decimal.rev in Hb at 2. rewrite usize_revapp in Hb.
  simpl in Hb. rewrite Nat.add_0_r in Hb.
  unfold NilZero.string_of_uint.
  destruct (Nat.to_uint n) eqn:Hd;
    [simpl in *; lia|..]; by rewrite length_string_of_uint.
Qed.

Lemma format_04d_inj idx1 idx2 : format_04d idx1 = format_04d idx2 → idx1 = idx2.
Proof.
  intros Heq.
  destruct (format_04d_value idx1) as (d1 & Hd1 & <-).
  destruct (format_04d_value idx2) as (d2 & Hd2 & <-).
  rewrite Heq in Hd1. congruence.
Qed.

(** X17: The index field identifies the class: result lines of different class
    indices differ in it, also beyond four digits, where the field
    grows instead of being cut. *)
Theorem format_04d_faithful idx1 idx2 :
  (format_04d idx1 = format_04d idx2 ↔ idx1 = idx2)
  ∧ (4 ≤ String.length (format_04d idx1))%nat
  ∧ (10 ^ 4 ≤ idx1 → format_04d idx1 = decimal idx1)%nat.
Proof.
  split; [split; [apply format_04d_inj|by intros ->]|].
  split; [rewrite length_format_04d; lia|].
  intros Hbig. unfold format_04d.
  destruct (decide (String.length (decimal idx1) ≤ 4)%nat) as [Hle|Hgt].
  - exfalso. pose proof (decimal_value_bound idx1) as Hv.
    assert (10 ^ String.length (decimal idx1) ≤ 10 ^ 4)%nat
      by (apply Nat.pow_le_mono_r; lia).
    lia.
  - replace (4 - String.length (decimal idx1)) with 0 by lia. done.
Qed.

Lemma length_decimal_pos n : (1 ≤ String.length (decimal n))%nat.
Proof.
  unfold decimal, NilZero.string_of_uint.
  destruct (Nat.to_uint n); simpl; lia.
Qed.

Lemma round_half_even_bounds q :
  (inject_Z (round_half_even q) - (1 # 2) <= q
   ∧ q <= inject_Z (round_half_even q) + (1 # 2))%Q.
Proof.
  pose proof (round_half_even_nearest q) as H.
  apply Qabs_Qle_condition in H as [H1 H2]. split; lra.
Qed.

Lemma round_half_even_mono a b :
  (a <= b)%Q → (round_half_even a ≤ round_half_even b)%Z.
Proof.
  intros Hab. apply Z.le_ngt. intros Hlt.
  destruct (round_half_even_bounds a) as [Ha _].
  destruct (round_half_even_bounds b) as [_ Hb].
  assert (inject_Z (round_half_even b) + 1 <= inject_Z (round_half_even a))%Q
    as Hstep.
  { rewrite <-(inject_Z_plus _ 1). rewrite <-Zle_Qle. lia. }
  assert (Z.even (round_half_even a) = true) as Hea.
  { apply round_half_even_tie. apply Qle_antisym.
    - apply round_half_even_nearest.
    - rewrite <-Qabs_opp. eapply Qle_trans; [|apply Qle_Qabs]. lra. }
  assert (Z.even (round_half_even b) = true) as Heb.
  { apply round_half_even_tie. apply Qle_antisym.
    - apply round_half_even_nearest.
    - eapply Qle_trans; [|apply Qle_Qabs]. lra. }
  assert (round_half_even a = round_half_even b + 1)%Z as Heq.
  { apply Z.le_antisymm; [|lia]. rewrite Zle_Qle, inject_Z_plus.
    change (inject_Z 1) with 1%Q. lra. }
  rewrite Heq, Z.even_add, Heb in Hea. done.
Qed.

Lemma hundredths_Qeq a b : (a == b)%Q → hundredths a = hundredths b.
Proof.
  intros Hab. unfold hundredths.
  apply Z.le_antisymm; apply round_half_even_mono; rewrite Hab; lra.
Qed.

(** X18: Rounding to two decimals keeps the order of the scores and depends on
    the value only: of two scores that are not negative the smaller one
    never shows more hundredths, and equal values are printed alike. *)
Theorem format_2f_monotone a b :
  ((0 <= a)%Q → (a <= b)%Q → (hundredths a ≤ hundredths b)%Z)
  ∧ ((a == b)%Q → format_2f a = format_2f b).
Proof.
  split.
  - intros Ha Hab. unfold hundredths. apply round_half_even_mono.
    rewrite !Qabs_pos by lra. lra.
  - intros Hab. unfold format_2f. rewrite (hundredths_Qeq a b Hab).
    assert (Qle_bool 0 a = Qle_bool 0 b) as ->; [|done].
    destruct (Qle_bool 0 a) eqn:Ha, (Qle_bool 0 b) eqn:Hb; try done.
    + apply Qle_bool_iff in Ha. rewrite Hab in Ha.
      apply Qle_bool_iff in Ha. congruence.
    + apply Qle_bool_iff in Hb. rewrite <-Hab in Hb.
      apply Qle_bool_iff in Hb. congruence.
Qed.

(** X19: A score between 0 and 1 is printed with four characters, one digit,
    the point and two digits, for a number of hundredths from 0 to 100. *)
Theorem format_2f_probability q :
  (0 <= q)%Q → (q <= 1)%Q →
  String.length (format_2f q) = 4
  ∧ (0 ≤ hundredths q ≤ 100)%Z.
Proof.
  intros H0 H1.
  assert (0 ≤ hundredths q ≤ 100)%Z as Hh.
  { split; [apply hundredths_nonneg|].
    destruct (round_half_even_bounds (Qabs q * 100)) as [Hlow _].
    fold (hundredths q) in Hlow. rewrite Qabs_pos in Hlow by done.
    apply Z.lt_succ_r. rewrite Zlt_Qlt.
    change (inject_Z (Z.succ 100)) with 101%Q. lra. }
  split; [|done]. unfold format_2f.
  assert (Qle_bool 0 q = true) as -> by by apply Qle_bool_iff.
  rewrite !length_app_string. simpl.
  assert (Z.to_nat (hundredths q / 100) < 10 ^ 1) as Hunit.
  { assert (hundredths q / 100 < 2)%Z
      by (apply Z.div_lt_upper_bound; lia).
    assert (0 ≤ hundredths q / 100)%Z by (apply Z.div_pos; lia).
    change (10 ^ 1) with 10. lia. }
  pose proof (length_decimal_bound 0 _ Hunit) as Hlen.
  pose proof (length_decimal_pos (Z.to_nat (hundredths q / 100))) as Hpos.
  lia.
Qed.

Section Unlimited.

Context (GFile : string → string) (np_argsort : argsort_impl).
Context (sess_run : string → list Q).

(** X10: Listing every class ([top_k] zero or negative, no threshold) needs a
    label map that covers the score vector: with a shorter one, and so
    with an empty one, the image always ends in an exception, after its
    header. *)
Theorem classify_image_short_labelmap
    (FLAGS : flags) (labelmap : list string)
    (label_dict : gmap string string) (fn : string) (out : list string) :
  (FLAGS_top_k FLAGS ≤ 0)%Z →
  FLAGS_score_threshold FLAGS = None →
  length labelmap < length (sess_run (GFile fn)) →
  ∃ lines e,
    classify_image GFile np_argsort sess_run FLAGS labelmap label_dict fn out
    = (out ++ format_header fn :: lines, Raise e).
Proof.
  intros Hk Hnone Hshort.
  assert (ranked np_argsort FLAGS (sess_run (GFile fn))
          = Ok (reverse (np_argsort (sess_run (GFile fn))))) as Hr.
  { rewrite ranked_unfold, Hnone. unfold truncated.
    by rewrite bool_decide_eq_false_2 by lia. }
  destruct (first_failure (resolves labelmap label_dict)
              (reverse (np_argsort (sess_run (GFile fn)))))
    as [Hall|(good & idx & rest & Heq & Hgood & Hno)].
  - exfalso. rewrite Forall_forall in Hall.
    destruct (Hall (length labelmap)) as (mid & Hmid & _).
    + by apply reverse_argsort_in_range.
    + apply lookup_lt_Some in Hmid. lia.
  - rewrite Heq in Hr.
    destruct (classify_image_fail GFile np_argsort sess_run FLAGS labelmap
                label_dict fn good idx rest out Hr Hgood Hno)
      as (lines & _ & Hrun).
    eauto.
Qed.

End Unlimited.

(** * The further properties at the example inputs *)

Lemma example_ranked_3 :
  ranked merge_argsort_impl (example_flags 3 None) example_scores
  = Ok [3; 1; 2].
Proof. reflexivity. Defined.

Lemma ranked_keeps_best_example :
  ranked merge_argsort_impl (example_flags 3 None) example_scores
  = Ok [3; 1; 2]
  ∧ (2 ∈ [3; 1; 2]) ∧ (0 < length example_scores)%nat ∧ (0 ∉ [3; 1; 2])
  ∧ (score_at example_scores 0 <= score_at example_scores 2)%Q.
Proof.
  assert (2 ∈ [3; 1; 2]) as Hi by (right; right; left).
  assert (0 < length example_scores) as Hj by (simpl; lia).
  assert (0 ∉ [3; 1; 2]) as Hnot.
  { intros H. repeat (apply elem_of_cons in H as [H|H]; [discriminate H|]).
    by apply elem_of_nil in H. }
  split; [exact example_ranked_3|]. split; [exact Hi|]. split; [exact Hj|].
  split; [exact Hnot|].
  exact (ranked_keeps_best merge_argsort_impl (example_flags 3 None)
           example_scores [3; 1; 2] 2 0 example_ranked_3 Hi Hj Hnot).
Defined.

Lemma ranked_unlimited_threshold_example :
  (FLAGS_top_k (example_flags 0 (Some 0.5%Q)) ≤ 0)%Z
  ∧ ranked merge_argsort_impl (example_flags 0 (Some 0.5%Q)) example_scores
    = Ok [3; 1; 2]
  ∧ (3 ∈ [3; 1; 2]
     ↔ 3 < length example_scores ∧ (0.5 <= score_at example_scores 3)%Q).
Proof.
  assert (FLAGS_top_k (example_flags 0 (Some 0.5%Q)) ≤ 0)%Z as Hk
    by (simpl; lia).
  split; [exact Hk|]. split; [reflexivity|].
  exact (ranked_unlimited_threshold merge_argsort_impl
           (example_flags 0 (Some 0.5%Q)) example_scores 0.5%Q [3; 1; 2] 3
           Hk eq_refl eq_refl).
Defined.

Lemma ranked_threshold_count_example :
  (0 < FLAGS_top_k (example_flags 2 (Some 0.5%Q)))%Z
  ∧ ∃ top_k,
      ranked merge_argsort_impl (example_flags 2 (Some 0.5%Q)) example_scores
      = Ok top_k
      ∧ length top_k = 2.
Proof.
  assert (0 < FLAGS_top_k (example_flags 2 (Some 0.5%Q)))%Z as Hk
    by (simpl; lia).
  split; [exact Hk|].
  destruct (ranked_threshold_count merge_argsort_impl
              (example_flags 2 (Some 0.5%Q)) example_scores 0.5%Q Hk eq_refl)
    as (top_k & Hr & _ & Hlen).
  exists top_k. split; [exact Hr|exact Hlen].
Defined.

Lemma example_sess_run_distinct i j :
  i < length (example_sess_run "") → j < length (example_sess_run "") →
  (score_at (example_sess_run "") i == score_at (example_sess_run "") j)%Q →
  i = j.
Proof.
  intros Hi Hj. simpl in Hi, Hj.
  destruct i as [|[|i]], j as [|[|j]]; try lia; try reflexivity;
    intros Heq; vm_compute in Heq; discriminate Heq.
Defined.

Lemma ranked_tie_free_example :
  ranked merge_argsort_impl (example_flags 0 None) (example_sess_run "")
  = ranked merge_argsort_rev_impl (example_flags 0 None) (example_sess_run "")
  ∧ ranked merge_argsort_impl (example_flags 0 None) [1; 1]%Q
    ≠ ranked merge_argsort_rev_impl (example_flags 0 None) [1; 1]%Q.
Proof.
  split.
  - exact (ranked_tie_free merge_argsort_impl merge_argsort_rev_impl
             (example_flags 0 None) (example_sess_run "")
             example_sess_run_distinct).
  - intros Heq. vm_compute in Heq. discriminate Heq.
Defined.

Lemma example_image_resolves :
  Forall (resolves ["/m/068hy"; "/m/01yrx"] example_label_dict) [0].
Proof.
  repeat constructor. exists "/m/068hy". split; [reflexivity|].
  exists "Pet". reflexivity.
Defined.

Lemma classify_image_ok_iff_example :
  ranked merge_argsort_impl (example_flags 1 None)
    (example_sess_run (example_GFile "cat.jpg")) = Ok [0]
  ∧ (classify_image example_GFile merge_argsort_impl example_sess_run
       (example_flags 1 None) ["/m/068hy"; "/m/01yrx"] example_label_dict
       "cat.jpg" []).2 = Ok ().
Proof.
  split; [reflexivity|].
  exact (proj2 (classify_image_ok_iff example_GFile merge_argsort_impl
                  example_sess_run (example_flags 1 None)
                  ["/m/068hy"; "/m/01yrx"] example_label_dict "cat.jpg" [0] []
                  eq_refl) example_image_resolves).
Defined.

Lemma example_short_load :
  LoadLabelMap example_GFile (FLAGS_labelmap example_short_flags)
    (FLAGS_dict example_short_flags)
  = Ok (["/m/068hy"], example_label_dict).
Proof. vm_compute. reflexivity. Defined.

Lemma main_stops_at_failure_example :
  split space (FLAGS_image example_short_flags) = [] ++ "cat.jpg" :: []
  ∧ ranked merge_argsort_impl example_short_flags
      (example_sess_run (example_GFile "cat.jpg")) = Ok ([0] ++ 1 :: [])
  ∧ ¬ resolves ["/m/068hy"] example_label_dict 1
  ∧ ∃ lines,
      length lines = 1
      ∧ main example_GFile merge_argsort_impl example_sess_run
          example_short_flags []
        = ([] ++ format_header "cat.jpg" :: lines, Raise IndexError).
Proof.
  assert (¬ resolves ["/m/068hy"] example_label_dict 1) as Hno.
  { intros (mid & Hmid & _). discriminate Hmid. }
  assert (Forall (resolves ["/m/068hy"] example_label_dict) [0]) as Hgood.
  { repeat constructor. exists "/m/068hy". split; [reflexivity|].
    exists "Pet". reflexivity. }
  split; [reflexivity|]. split; [reflexivity|]. split; [exact Hno|].
  destruct (main_stops_at_failure example_GFile merge_argsort_impl
              example_sess_run example_short_flags ["/m/068hy"]
              example_label_dict [] "cat.jpg" [] [0] 1 [] []
              example_short_load eq_refl)
    as (blocks & lines & Hblocks & Hlines & Hrun);
    [intros fn' top_k Hin; by apply elem_of_nil in Hin
    |reflexivity|exact Hgood|exact Hno|].
  exists lines. apply Forall2_length in Hlines.
  apply Forall2_nil_inv_l in Hblocks. subst blocks.
  split; [symmetry; exact Hlines|exact Hrun].
Defined.

Lemma main_bad_dictionary_example :
  text_line "/m/01yrx" ∈ readlines (example_GFile (FLAGS_dict example_broken_flags))
  ∧ contains comma (text_line "/m/01yrx") = false
  ∧ main example_GFile merge_argsort_impl example_sess_run
      example_broken_flags [] = ([], Raise IndexError).
Proof.
  assert (text_line "/m/01yrx"
          ∈ readlines (example_GFile (FLAGS_dict example_broken_flags)))
    as Hin by (right; left).
  split; [exact Hin|]. split; [reflexivity|].
  exact (main_bad_dictionary example_GFile merge_argsort_impl example_sess_run
           example_broken_flags (text_line "/m/01yrx") [] Hin eq_refl).
Defined.

Lemma classify_image_below_threshold_example :
  Forall (λ s, (s < 0.99)%Q) (example_sess_run (example_GFile "cat.jpg"))
  ∧ classify_image example_GFile merge_argsort_impl example_sess_run
      (example_flags 1 (Some 0.99%Q)) [] ∅ "cat.jpg" []
    = ([] ++ [format_header "cat.jpg"], Ok ()).
Proof.
  assert (Forall (λ s, (s < 0.99)%Q)
            (example_sess_run (example_GFile "cat.jpg"))) as Hlow
    by (repeat constructor).
  split; [exact Hlow|].
  exact (classify_image_below_threshold example_GFile merge_argsort_impl
           example_sess_run (example_flags 1 (Some 0.99%Q)) [] ∅ "cat.jpg"
           0.99%Q [] eq_refl Hlow).
Defined.

Lemma example_load :
  LoadLabelMap example_GFile "classes.txt" "dict.csv"
  = Ok (["/m/068hy"; "/m/01yrx"], example_label_dict).
Proof. vm_compute. reflexivity. Defined.

Lemma LoadLabelMap_returns_iff_example :
  (∃ tables, LoadLabelMap example_GFile "classes.txt" "dict.csv" = Ok tables)
  ∧ String newline ""
    ∈ readlines (text_line "/m/068hy,Pet" +:+ String newline "")
  ∧ LoadLabelMap (λ _, text_line "/m/068hy,Pet" +:+ String newline "")
      "classes.txt" "dict.csv" = Raise IndexError.
Proof.
  split.
  - exact (proj2 (proj1 (LoadLabelMap_returns_iff example_GFile
                           "classes.txt" "dict.csv")) example_dict_lines).
  - assert (String newline ""
            ∈ readlines (text_line "/m/068hy,Pet" +:+ String newline ""))
      as Hin by (right; left).
    split; [exact Hin|].
    exact (proj2 (proj2 (LoadLabelMap_returns_iff
                           (λ _, text_line "/m/068hy,Pet" +:+ String newline "")
                           "classes.txt" "dict.csv")) Hin).
Defined.

Lemma LoadLabelMap_dict_keys_example :
  LoadLabelMap example_GFile "classes.txt" "dict.csv"
  = Ok (["/m/068hy"; "/m/01yrx"], example_label_dict)
  ∧ (size example_label_dict
     ≤ length (readlines (example_GFile "dict.csv")))%nat.
Proof.
  split; [exact example_load|].
  exact (proj2 (proj2 (LoadLabelMap_dict_keys example_GFile "classes.txt"
                         "dict.csv" _ _ example_load))).
Defined.

Lemma LoadLabelMap_dict_clean_example :
  LoadLabelMap example_GFile "classes.txt" "dict.csv"
  = Ok (["/m/068hy"; "/m/01yrx"], example_label_dict)
  ∧ example_label_dict !! "/m/068hy" = Some "Pet"
  ∧ trimmed (in_chars strip_chars) "/m/068hy"
  ∧ contains comma "/m/068hy" = false.
Proof.
  split; [exact example_load|]. split; [reflexivity|].
  destruct (LoadLabelMap_dict_clean example_GFile "classes.txt" "dict.csv"
              _ _ "/m/068hy" "Pet" example_load eq_refl)
    as (Htrim & Hcomma & _).
  split; [exact Htrim|exact Hcomma].
Defined.

Lemma example_spaced_load :
  LoadLabelMap example_GFile_spaced "spaced.txt" "dict.csv"
  = Ok ([String space "/m/068hy"], example_label_dict).
Proof. vm_compute. reflexivity. Defined.

Lemma LoadLabelMap_untrimmed_mid_example :
  LoadLabelMap example_GFile_spaced "spaced.txt" "dict.csv"
  = Ok ([String space "/m/068hy"], example_label_dict)
  ∧ ¬ trimmed (in_chars strip_chars) (String space "/m/068hy")
  ∧ print_result [String space "/m/068hy"] example_label_dict
      (example_sess_run "") 0 []
    = ([], Raise KeyError).
Proof.
  assert (¬ trimmed (in_chars strip_chars) (String space "/m/068hy")) as Hno.
  { intros [Hfirst _]. specialize (Hfirst space eq_refl). discriminate Hfirst. }
  split; [exact example_spaced_load|]. split; [exact Hno|].
  exact (LoadLabelMap_untrimmed_mid example_GFile_spaced "spaced.txt"
           "dict.csv" _ _ 0 (String space "/m/068hy") (example_sess_run "") []
           example_spaced_load eq_refl Hno).
Defined.

Lemma LoadLabelMap_labelmap_entries_example :
  LoadLabelMap example_GFile "classes.txt" "dict.csv"
  = Ok (["/m/068hy"; "/m/01yrx"], example_label_dict)
  ∧ length ["/m/068hy"; "/m/01yrx"]
    = count_char newline (example_GFile "classes.txt") + 0.
Proof.
  split; [exact example_load|].
  exact (proj1 (LoadLabelMap_labelmap_entries example_GFile "classes.txt"
                  "dict.csv" _ _ example_load)).
Defined.

Lemma format_04d_faithful_example :
  (10 ^ 4 ≤ 12345)%nat ∧ format_04d 12345 = decimal 12345.
Proof.
  assert (10 ^ 4 ≤ 12345)%nat as Hbig by (vm_compute; lia).
  split; [exact Hbig|].
  exact (proj2 (proj2 (format_04d_faithful 12345 0)) Hbig).
Defined.

Lemma format_2f_monotone_example :
  (0 <= 0.954)%Q ∧ (0.954 <= 0.956)%Q
  ∧ (hundredths 0.954 ≤ hundredths 0.956)%Z
  ∧ format_2f (1 # 2) = format_2f (2 # 4).
Proof.
  assert (0 <= 0.954)%Q as H0 by (vm_compute; discriminate).
  assert (0.954 <= 0.956)%Q as H1 by (vm_compute; discriminate).
  assert (1 # 2 == 2 # 4)%Q as H2 by reflexivity.
  split; [exact H0|]. split; [exact H1|]. split.
  - exact (proj1 (format_2f_monotone 0.954 0.956) H0 H1).
  - exact (proj2 (format_2f_monotone (1 # 2) (2 # 4)) H2).
Defined.

Lemma format_2f_probability_example :
  (0 <= 0.96)%Q ∧ (0.96 <= 1)%Q ∧ String.length (format_2f 0.96) = 4.
Proof.
  assert (0 <= 0.96)%Q as H0 by (vm_compute; discriminate).
  assert (0.96 <= 1)%Q as H1 by (vm_compute; discriminate).
  split; [exact H0|]. split; [exact H1|].
  exact (proj1 (format_2f_probability 0.96 H0 H1)).
Defined.

Lemma classify_image_short_labelmap_example :
  (FLAGS_top_k example_all_flags ≤ 0)%Z
  ∧ length ["/m/068hy"] < length (example_sess_run (example_GFile "cat.jpg"))
  ∧ ∃ lines e,
      classify_image example_GFile merge_argsort_impl example_sess_run
        example_all_flags ["/m/068hy"] example_label_dict "cat.jpg" []
      = ([] ++ format_header "cat.jpg" :: lines, Raise e).
Proof.
  assert (FLAGS_top_k example_all_flags ≤ 0)%Z as Hk by (simpl; lia).
  assert (length ["/m/068hy"]
          < length (example_sess_run (example_GFile "cat.jpg"))) as Hshort
    by (simpl; lia).
  split; [exact Hk|]. split; [exact Hshort|].
  exact (classify_image_short_labelmap example_GFile merge_argsort_impl
           example_sess_run example_all_flags ["/m/068hy"] example_label_dict
           "cat.jpg" [] Hk eq_refl Hshort).
Defined.
